(** * godu: a concurrent disk-usage walker

    A shallow embedding of [main.go].  The program is a set of goroutines
    (the main goroutine, one walker per directory, one closer) that
    communicate only through a [sync.WaitGroup], the buffered channel
    [fileSizes] and the buffered channel [sema] used as a counting semaphore.
    Every shared access goes through one of these synchronisation objects, so
    the program is modelled as an interleaving of atomic steps, one per
    synchronisation or I/O operation of the source.  The scheduler is not
    modelled: theorems quantify over every interleaving, which covers every
    value of GOMAXPROCS. *)

From Stdlib Require Import ZArith String Ascii List Lia Permutation.
From Stdlib Require Import DecimalString Floats.
From stdpp Require Import base tactics option list.

Import ListNotations.
Local Open Scope Z_scope.

(** ** int64 arithmetic *)

(** Two's complement reduction of an integer to the int64 range. *)
Definition wrap64 (z : Z) : Z := (z + 2 ^ 63) mod 2 ^ 64 - 2 ^ 63.

Definition int64_add (a b : Z) : Z := wrap64 (a + b).
Definition int64_sub (a b : Z) : Z := wrap64 (a - b).

(** Go's [/] on int64: truncated quotient, a run-time panic on a zero
    divisor ([None]), wrap-around for [MinInt64 / -1]. *)
Definition int64_div (a b : Z) : option Z :=
  if b =? 0 then None else Some (wrap64 (Z.quot a b)).

(** ** Formatting verbs of [fmt.Printf] *)

(** [%d] *)
Definition fmt_d (z : Z) : string := NilZero.string_of_int (Z.to_int z).

(** Round half to even of the rational [p / q], [0 < q]. *)
Definition round_half_even (p q : Z) : Z :=
  let d := p / q in
  let r := 2 * (p mod q) in
  if r <? q then d
  else if q <? r then d + 1
  else if Z.even d then d else d + 1.

(** [float64(x)] for an int64 [x]: the nearest binary64 value. *)
Definition float64_of_int64 (x : Z) : float :=
  let m := Z.abs x in
  let f := if m =? 2 ^ 63 then 9223372036854775808%float
           else PrimFloat.of_uint63 (Uint63.of_Z m) in
  if x <? 0 then PrimFloat.opp f else f.

(** [%.1f]: the exact value of the binary64 number rounded (half to even) to
    one decimal place. *)
Definition fmt_f1 (f : float) : string :=
  match Prim2SF f with
  | S754_zero s => ((if s then "-" else "") ++ "0.0")%string
  | S754_infinity s => (if s then "-Inf" else "+Inf")%string
  | S754_nan => "NaN"%string
  | S754_finite s m e =>
      let tenths :=
        if 0 <=? e then Zpos m * 2 ^ e * 10
        else round_half_even (Zpos m * 10) (2 ^ (- e)) in
      ((if s then "-" else "") ++ fmt_d (tenths / 10) ++ "." ++ fmt_d (tenths mod 10))%string
  end.

(** The argument [float64(nbytes)/1e9] of both reporters. *)
Definition gigabytes (nbytes : Z) : float :=
  PrimFloat.div (float64_of_int64 nbytes) 1e9%float.

(** ** Reporters *)

(** The line terminator written by the format strings. *)
Definition nl : string := String "010" EmptyString.

Definition clamp_elapsed (elapsed : Z) : Z :=
  if elapsed =? 0 then 1 else elapsed.

(** [printDiskUsage]; [stop] is the value read from [time.Now().Unix()].
    The result is the text written to standard output, [None] when the
    integer division panics. *)
Definition printDiskUsage (nfiles nbytes start : Z) (stop : Z) : option string :=
  let elapsed := int64_sub stop start in
  let elapsed := clamp_elapsed elapsed in
  match int64_div nfiles elapsed with
  | None => None
  | Some fps =>
      Some (nl ++ "Done!" ++ nl ++ "Files: " ++ fmt_d nfiles
            ++ ", Size: " ++ fmt_f1 (gigabytes nbytes)
            ++ "GB, Avg FPS: " ++ fmt_d fps
            ++ ", Elapsed: " ++ fmt_d elapsed ++ " seconds" ++ nl)%string
  end.

(** [printProgress]; [now] is the clock reading and [goroutines] the value
    of [runtime.NumGoroutine()]. *)
Definition printProgress (nfiles nbytes start : Z) (now goroutines : Z) : option string :=
  let elapsed := int64_sub now start in
  let elapsed := clamp_elapsed elapsed in
  match int64_div nfiles elapsed with
  | None => None
  | Some fps =>
      Some ("Files: " ++ fmt_d nfiles
            ++ ", Size: " ++ fmt_f1 (gigabytes nbytes)
            ++ "GB, Goroutines: " ++ fmt_d goroutines
            ++ ", Cur FPS: " ++ fmt_d fps ++ nl)%string
  end.

(** The text of [fmt.Fprintf(os.Stderr, "du: %v\n", err)]. *)
Definition error_line (err : string) : string := ("du: " ++ err ++ nl)%string.

(** ** The file system as the program sees it *)

(** [os.FileInfo], restricted to the three methods the program calls. *)
Record FileInfo := { Name : string; Size : Z; IsDir : bool }.

(** ** Startup configuration *)

Record config := {
  args : list string;      (* flag.Args(): the root paths on the command line *)
  vFlag : bool;            (* -v *)
  tOpt : option Z;         (* -t, when given *)
  NumCPU : Z;              (* runtime.NumCPU() *)
  start : Z                (* time.Now().Unix() at startup *)
}.

(** [*tFlag]: the option's value, [runtime.NumCPU()] by default. *)
Definition tFlag (c : config) : Z := default (NumCPU c) (tOpt c).

(** [main] passes [*tFlag] to [runtime.GOMAXPROCS] and uses it nowhere else.
    The call belongs to the Go runtime, which keeps the count as an int32:
    the states below are those of the program once the call has returned,
    which is what the statements on [-t] mean by a count below 2^31. *)

Definition roots (c : config) : list string :=
  match args c with
  | [] => ["."%string]
  | _ => args c
  end.

(** Buffer capacities of the two channels.  The source fixes both at 256
    ([godu_caps]); the semantics takes them as a parameter so that results
    can be stated for every capacity. *)
Record caps := { sema_cap : nat; fileSizes_cap : nat }.

Definition godu_caps : caps := {| sema_cap := 256; fileSizes_cap := 256 |}.

(** ** Goroutines *)

(** Program points of [walkDir], with the call to [dirents] unfolded. *)
Inductive walker :=
| WAcquire (dir : string)                             (* sema <- struct{}{} *)
| WRead (dir : string)                                (* ioutil.ReadDir(dir) *)
| WReport (dir : string) (err : string)               (* fmt.Fprintf(os.Stderr, ...); return nil *)
| WRelease (dir : string) (entries : list FileInfo)   (* deferred <-sema; return *)
| WRange (dir : string) (entries : list FileInfo)     (* for _, entry := range ...; deferred n.Done() *)
| WGo (dir : string) (entry : FileInfo) (rest : list FileInfo)  (* go walkDir(subdir, n, fileSizes) *)
| WExit.                                              (* returned *)

(** Program points of [main] after flag parsing. *)
Inductive main_pc :=
| MRange (rest : list string)                 (* for _, root := range roots: n.Add(1) *)
| MGo (root : string) (rest : list string)    (* go walkDir(root, &n, fileSizes) *)
| MSelect                                     (* the select loop *)
| MFinal                                      (* printDiskUsage(nfiles, nbytes, start) *)
| MExit.                                      (* main returned: the process is over *)

(** The anonymous goroutine [func() { n.Wait(); close(fileSizes) }]. *)
Inductive closer_pc :=
| CNone     (* not started yet *)
| CWait     (* n.Wait() *)
| CClose    (* close(fileSizes) *)
| CExit.

Record state := {
  main : main_pc;
  nfiles : Z;                 (* main's local, int64 *)
  nbytes : Z;                 (* main's local, int64 *)
  walkers : list walker;      (* every walkDir goroutine started so far *)
  closer : closer_pc;
  n : Z;                      (* counter of the WaitGroup *)
  fileSizes : list Z;         (* buffer of the channel, oldest first *)
  closed : bool;              (* fileSizes has been closed *)
  sema : nat;                 (* number of tokens in sema's buffer *)
  stderr : list string;       (* writes to os.Stderr, oldest first *)
  stdout : list string        (* writes to os.Stdout, oldest first *)
}.

Definition with_main (m : main_pc) (s : state) : state :=
  {| main := m; nfiles := nfiles s; nbytes := nbytes s; walkers := walkers s;
     closer := closer s; n := n s; fileSizes := fileSizes s; closed := closed s;
     sema := sema s; stderr := stderr s; stdout := stdout s |}.
Definition with_totals (f b : Z) (s : state) : state :=
  {| main := main s; nfiles := f; nbytes := b; walkers := walkers s;
     closer := closer s; n := n s; fileSizes := fileSizes s; closed := closed s;
     sema := sema s; stderr := stderr s; stdout := stdout s |}.
Definition with_walkers (ws : list walker) (s : state) : state :=
  {| main := main s; nfiles := nfiles s; nbytes := nbytes s; walkers := ws;
     closer := closer s; n := n s; fileSizes := fileSizes s; closed := closed s;
     sema := sema s; stderr := stderr s; stdout := stdout s |}.
Definition with_closer (c : closer_pc) (s : state) : state :=
  {| main := main s; nfiles := nfiles s; nbytes := nbytes s; walkers := walkers s;
     closer := c; n := n s; fileSizes := fileSizes s; closed := closed s;
     sema := sema s; stderr := stderr s; stdout := stdout s |}.
Definition with_n (k : Z) (s : state) : state :=
  {| main := main s; nfiles := nfiles s; nbytes := nbytes s; walkers := walkers s;
     closer := closer s; n := k; fileSizes := fileSizes s; closed := closed s;
     sema := sema s; stderr := stderr s; stdout := stdout s |}.
Definition with_fileSizes (b : list Z) (s : state) : state :=
  {| main := main s; nfiles := nfiles s; nbytes := nbytes s; walkers := walkers s;
     closer := closer s; n := n s; fileSizes := b; closed := closed s;
     sema := sema s; stderr := stderr s; stdout := stdout s |}.
Definition with_closed (s : state) : state :=
  {| main := main s; nfiles := nfiles s; nbytes := nbytes s; walkers := walkers s;
     closer := closer s; n := n s; fileSizes := fileSizes s; closed := true;
     sema := sema s; stderr := stderr s; stdout := stdout s |}.
Definition with_sema (k : nat) (s : state) : state :=
  {| main := main s; nfiles := nfiles s; nbytes := nbytes s; walkers := walkers s;
     closer := closer s; n := n s; fileSizes := fileSizes s; closed := closed s;
     sema := k; stderr := stderr s; stdout := stdout s |}.
Definition with_stderr (l : list string) (s : state) : state :=
  {| main := main s; nfiles := nfiles s; nbytes := nbytes s; walkers := walkers s;
     closer := closer s; n := n s; fileSizes := fileSizes s; closed := closed s;
     sema := sema s; stderr := l; stdout := stdout s |}.
Definition with_stdout (l : list string) (s : state) : state :=
  {| main := main s; nfiles := nfiles s; nbytes := nbytes s; walkers := walkers s;
     closer := closer s; n := n s; fileSizes := fileSizes s; closed := closed s;
     sema := sema s; stderr := stderr s; stdout := l |}.

(** The state in which [main] enters its dispatch loop. *)
Definition init (c : config) : state :=
  {| main := MRange (roots c); nfiles := 0; nbytes := 0; walkers := [];
     closer := CNone; n := 0; fileSizes := []; closed := false;
     sema := 0%nat; stderr := []; stdout := [] |}.

(** ** Steps *)

Inductive tid := TMain | TCloser | TWalker (i : nat).

(** What a scheduler decides: which goroutine runs next, and, where the
    step reads the environment, what it reads. *)
Inductive choice :=
| StepMain (now : Z)                   (* main's next operation; [now] is the clock *)
| StepTick (now : Z) (goroutines : Z)  (* the select takes the tick case *)
| StepCloser
| StepWalker (i : nat).

Definition tid_of (c : choice) : tid :=
  match c with
  | StepMain _ | StepTick _ _ => TMain
  | StepCloser => TCloser
  | StepWalker i => TWalker i
  end.

(** The operations that are visible in a trace. *)
Inductive action :=
| Add                      (* n.Add(1) *)
| Go (dir : string)        (* go walkDir(dir, n, fileSizes) *)
| GoCloser                 (* go func() { n.Wait(); close(fileSizes) }() *)
| Done                     (* n.Done() *)
| WaitReturn               (* n.Wait() returns *)
| Close                    (* close(fileSizes) *)
| Acquire                  (* sema <- struct{}{} *)
| ReadDir (dir : string)   (* ioutil.ReadDir(dir) *)
| Release                  (* <-sema *)
| Stderr (text : string)
| Stdout (text : string)
| Tick (text : string)     (* <-tick, and the line printProgress writes *)
| Send (v : Z)             (* fileSizes <- v *)
| Recv (v : Z)             (* v, true := <-fileSizes *)
| RecvClosed.              (* _, false := <-fileSizes *)

Abbreviation event := (tid * action)%type.

Inductive outcome :=
| Blocked                            (* the goroutine cannot take a step now *)
| Panic (msg : string)               (* a run-time panic *)
| Next (a : action) (s : state).

Section Semantics.

(** [ioutil.ReadDir] and [filepath.Join] belong to the Go library.  The
    file system is what [ReadDir] answers: the entries of a directory, or the
    description of the error. *)
Variable ReadDirF : string -> list FileInfo + string.
Variable Join : string -> string -> string.
Variable cap : caps.

Local Open Scope string_scope.

Definition step_walker (i : nat) (s : state) : outcome :=
  match walkers s !! i with
  | None => Blocked
  | Some w =>
    let goto w' s := with_walkers (<[i := w']> (walkers s)) s in
    match w with
    | WAcquire dir =>
        if (sema s <? sema_cap cap)%nat
        then Next Acquire (goto (WRead dir) (with_sema (S (sema s)) s))
        else Blocked
    | WRead dir =>
        match ReadDirF dir with
        | inl entries => Next (ReadDir dir) (goto (WRelease dir entries) s)
        | inr err => Next (ReadDir dir) (goto (WReport dir err) s)
        end
    | WReport dir err =>
        let text := error_line err in
        Next (Stderr text) (goto (WRelease dir []) (with_stderr (stderr s ++ [text]) s))
    | WRelease dir entries =>
        match sema s with
        | O => Blocked
        | S k => Next Release (goto (WRange dir entries) (with_sema k s))
        end
    | WRange dir [] =>
        if (n s <=? 0)%Z then Panic "sync: negative WaitGroup counter"
        else Next Done (goto WExit (with_n (n s - 1) s))
    | WRange dir (entry :: rest) =>
        if IsDir entry
        then Next Add (goto (WGo dir entry rest) (with_n (n s + 1) s))
        else if closed s then Panic "send on closed channel"
        else if (length (fileSizes s) <? fileSizes_cap cap)%nat
        then Next (Send (Size entry))
                  (goto (WRange dir rest) (with_fileSizes (fileSizes s ++ [Size entry]) s))
        else Blocked
    | WGo dir entry rest =>
        let subdir := Join dir (Name entry) in
        Next (Go subdir)
             (with_walkers (<[i := WRange dir rest]> (walkers s) ++ [WAcquire subdir]) s)
    | WExit => Blocked
    end
  end.

Definition step_closer (s : state) : outcome :=
  match closer s with
  | CWait => if (n s =? 0)%Z then Next WaitReturn (with_closer CClose s) else Blocked
  | CClose =>
      if closed s then Panic "close of closed channel"
      else Next Close (with_closer CExit (with_closed s))
  | CNone | CExit => Blocked
  end.

Definition step_main (c : config) (now : Z) (s : state) : outcome :=
  match main s with
  | MRange (root :: rest) => Next Add (with_main (MGo root rest) (with_n (n s + 1) s))
  | MGo root rest =>
      Next (Go root) (with_main (MRange rest) (with_walkers (walkers s ++ [WAcquire root]) s))
  | MRange [] => Next GoCloser (with_main MSelect (with_closer CWait s))
  | MSelect =>
      match fileSizes s with
      | size :: buf =>
          Next (Recv size)
               (with_totals (int64_add (nfiles s) 1) (int64_add (nbytes s) size)
                            (with_fileSizes buf s))
      | [] => if closed s then Next RecvClosed (with_main MFinal s) else Blocked
      end
  | MFinal =>
      match printDiskUsage (nfiles s) (nbytes s) (start c) now with
      | Some text => Next (Stdout text) (with_main MExit (with_stdout (stdout s ++ [text]) s))
      | None => Panic "runtime error: integer divide by zero"
      end
  | MExit => Blocked
  end.

(** The tick case of the select: enabled only under [-v]. *)
Definition step_tick (c : config) (now goroutines : Z) (s : state) : outcome :=
  match main s with
  | MSelect =>
      if vFlag c then
        match printProgress (nfiles s) (nbytes s) (start c) now goroutines with
        | Some text => Next (Tick text) (with_stdout (stdout s ++ [text]) s)
        | None => Panic "runtime error: integer divide by zero"
        end
      else Blocked
  | _ => Blocked
  end.

Definition exited (m : main_pc) : bool :=
  match m with MExit => true | _ => false end.

(** When [main] has returned the process is over and nothing runs. *)
Definition step (c : config) (ch : choice) (s : state) : outcome :=
  if exited (main s) then Blocked
  else match ch with
       | StepMain now => step_main c now s
       | StepTick now g => step_tick c now g s
       | StepCloser => step_closer s
       | StepWalker i => step_walker i s
       end.

(** Executions, with the trace of their events (oldest first). *)
Inductive run (c : config) : list event -> state -> Prop :=
| run_init : run c [] (init c)
| run_step tr s ch a s' :
    run c tr s -> step c ch s = Next a s' -> run c (tr ++ [(tid_of ch, a)]) s'.

(** Running a schedule: the trace and the state reached, [None] when a
    chosen goroutine cannot step or panics. *)
Fixpoint exec (c : config) (sched : list choice) (s : state) : option (list event * state) :=
  match sched with
  | [] => Some ([], s)
  | ch :: sched' =>
      match step c ch s with
      | Next a s' =>
          match exec c sched' s' with
          | Some (tr, s'') => Some ((tid_of ch, a) :: tr, s'')
          | None => None
          end
      | _ => None
      end
  end.

End Semantics.

(** ** Directory trees *)

(** What a walk can find below a directory: a failed read, or a listing
    whose subdirectories are trees again.  [File] stands for every entry that
    is not a directory. *)
Inductive tree :=
| Failed (err : string)
| Entries (es : list entry)
with entry :=
| File (name : string) (size : Z)
| Dir (name : string) (size : Z) (sub : tree).

(** The [os.FileInfo] that [ReadDir] returns for an entry. *)
Definition info (e : entry) : FileInfo :=
  match e with
  | File name size => {| Name := name; Size := size; IsDir := false |}
  | Dir name size _ => {| Name := name; Size := size; IsDir := true |}
  end.

(** Sizes of the files of a tree, in listing order. *)
Fixpoint sizes (t : tree) : list Z :=
  match t with
  | Failed _ => []
  | Entries es => flat_map entry_sizes es
  end
with entry_sizes (e : entry) : list Z :=
  match e with
  | File _ size => [size]
  | Dir _ _ sub => sizes sub
  end.

(** Error descriptions of the directories whose read fails. *)
Fixpoint errors (t : tree) : list string :=
  match t with
  | Failed err => [err]
  | Entries es => flat_map entry_errors es
  end
with entry_errors (e : entry) : list string :=
  match e with
  | File _ _ => []
  | Dir _ _ sub => errors sub
  end.

(** Number of directories of a tree, the root included. *)
Fixpoint dirs (t : tree) : nat :=
  match t with
  | Failed _ => 1
  | Entries es => S (list_sum (map entry_dirs es))
  end
with entry_dirs (e : entry) : nat :=
  match e with
  | File _ _ => 0
  | Dir _ _ sub => dirs sub
  end.

(** Number of steps the program spends on a tree: acquire, read, release
    and [Done] for a directory, one more for the error report; [Add] and
    [go] for a subdirectory; a send and a receive for a file. *)
Fixpoint cost (t : tree) : nat :=
  match t with
  | Failed _ => 5
  | Entries es => 4 + list_sum (map entry_cost es)
  end
with entry_cost (e : entry) : nat :=
  match e with
  | File _ _ => 2
  | Dir _ _ sub => 2 + cost sub
  end.

Definition sumZ (l : list Z) : Z := foldr Z.add 0 l.

Definition nfiles_of (ts : list tree) : Z := Z.of_nat (length (flat_map sizes ts)).
Definition nbytes_of (ts : list tree) : Z := sumZ (flat_map sizes ts).
Definition error_lines (ts : list tree) : list string :=
  map error_line (flat_map errors ts).

Section FileSystem.

Variable ReadDirF : string -> list FileInfo + string.
Variable Join : string -> string -> string.

(** [mounted dir t]: the file system holds the tree [t] at path [dir]. *)
Fixpoint mounted (dir : string) (t : tree) : Prop :=
  match t with
  | Failed err => ReadDirF dir = inr err
  | Entries es =>
      ReadDirF dir = inl (map info es) /\
      (fix all (es : list entry) : Prop :=
         match es with
         | [] => True
         | e :: es' => mounted_entry dir e /\ all es'
         end) es
  end
with mounted_entry (dir : string) (e : entry) : Prop :=
  match e with
  | File _ _ => True
  | Dir name _ sub => mounted (Join dir name) sub
  end.

Definition mounted_all (dir : string) (es : list entry) : Prop :=
  Forall (mounted_entry dir) es.

(** No read fails anywhere in the tree. *)
Definition readable (t : tree) : Prop := errors t = [].

End FileSystem.

(** ** Observations on states and traces *)

Definition total {A} (f : A -> Z) (l : list A) : Z := foldr (fun x a => f x + a) 0 l.

(** A walker that has not returned yet. *)
Definition live (w : walker) : Z :=
  match w with WExit => 0 | _ => 1 end.

(** A walker that has registered a child it has not started yet. *)
Definition pending_go (w : walker) : Z :=
  match w with WGo _ _ _ => 1 | _ => 0 end.

(** A walker inside [dirents], between acquire and release. *)
Definition holding (w : walker) : Z :=
  match w with WRead _ | WReport _ _ | WRelease _ _ => 1 | _ => 0 end.

(** A walker that has not entered [dirents] yet, and one that holds a token
    and has not read its directory yet. *)
Definition waiting (w : walker) : Z :=
  match w with WAcquire _ => 1 | _ => 0 end.
Definition reading (w : walker) : Z :=
  match w with WRead _ => 1 | _ => 0 end.

Definition main_pending_go (m : main_pc) : Z :=
  match m with MGo _ _ => 1 | _ => 0 end.

Definition dispatching (m : main_pc) : bool :=
  match m with MRange _ | MGo _ _ => true | _ => false end.

Definition finished (m : main_pc) : bool :=
  match m with MFinal | MExit => true | _ => false end.

Definition is_send (a : action) : bool := match a with Send _ => true | _ => false end.
Definition is_close (a : action) : bool := match a with Close => true | _ => false end.
Definition is_add (a : action) : bool := match a with Add => true | _ => false end.
Definition is_go (a : action) : bool := match a with Go _ => true | _ => false end.
Definition is_done (a : action) : bool := match a with Done => true | _ => false end.
Definition is_acquire (a : action) : bool := match a with Acquire => true | _ => false end.
Definition is_release (a : action) : bool := match a with Release => true | _ => false end.
Definition is_readdir (a : action) : bool := match a with ReadDir _ => true | _ => false end.
Definition is_stdout (a : action) : bool := match a with Stdout _ => true | _ => false end.
Definition is_tick (a : action) : bool := match a with Tick _ => true | _ => false end.

Definition occurrences (p : action -> bool) (tr : list event) : nat :=
  length (filter (fun e => p e.2 = true) tr).

(** Values sent on, and received from, [fileSizes], oldest first. *)
Definition sent (tr : list event) : list Z :=
  flat_map (fun e => match e.2 with Send v => [v] | _ => [] end) tr.
Definition received (tr : list event) : list Z :=
  flat_map (fun e => match e.2 with Recv v => [v] | _ => [] end) tr.

Global Instance tid_eq_dec : EqDecision tid.
Proof. solve_decision. Defined.

(** The operations of goroutine [g] in a trace, and the last of them. *)
Definition history (g : tid) (tr : list event) : list action :=
  (filter (fun e => e.1 = g) tr).*2.
Definition last_of (g : tid) (tr : list event) : option action :=
  last (history g tr).

(** Program order: the operation a goroutine performed last at each of its
    program points. *)
Definition walker_last (w : walker) (o : option action) : Prop :=
  match w with
  | WAcquire _ => o = None
  | WRead _ => o = Some Acquire
  | WReport dir _ => o = Some (ReadDir dir)
  | WRelease dir _ => o = Some (ReadDir dir) \/ exists text, o = Some (Stderr text)
  | WRange _ _ =>
      o = Some Release \/ (exists v, o = Some (Send v)) \/ (exists d, o = Some (Go d))
  | WGo _ _ _ => o = Some Add
  | WExit => o = Some Done
  end.

Definition main_last (m : main_pc) (o : option action) : Prop :=
  match m with
  | MRange _ => o = None \/ exists d, o = Some (Go d)
  | MGo _ _ => o = Some Add
  | MSelect =>
      o = Some GoCloser \/ (exists v, o = Some (Recv v)) \/ (exists t, o = Some (Tick t))
  | MFinal => o = Some RecvClosed
  | MExit => exists t, o = Some (Stdout t)
  end.

Definition closer_last (p : closer_pc) (o : option action) : Prop :=
  match p with
  | CNone | CWait => o = None
  | CClose => o = Some WaitReturn
  | CExit => o = Some Close
  end.

(** What the same goroutine must have done last before an operation. *)
Definition program_order (a : action) (prev : option action) : Prop :=
  match a with
  | Acquire => prev = None
  | ReadDir _ => prev = Some Acquire
  | Stderr _ => exists d, prev = Some (ReadDir d)
  | Release => (exists d, prev = Some (ReadDir d)) \/ exists text, prev = Some (Stderr text)
  | Go _ => prev = Some Add
  | WaitReturn => prev = None
  | Close => prev = Some WaitReturn
  | _ => True
  end.

Record order_inv (tr : list event) (s : state) : Prop := {
  inv_walker_last i w : walkers s !! i = Some w -> walker_last w (last_of (TWalker i) tr);
  inv_unborn i : (length (walkers s) <= i)%nat -> last_of (TWalker i) tr = None;
  inv_main_last : main_last (main s) (last_of TMain tr);
  inv_closer_last : closer_last (closer s) (last_of TCloser tr)
}.

(** ** Invariants *)

Section Invariants.

Variable ReadDirF : string -> list FileInfo + string.
Variable Join : string -> string -> string.
Variable cap : caps.

(** WaitGroup, semaphore and close protocol. *)
Record sync_inv (s : state) : Prop := {
  inv_n : n s = total live (walkers s) + total pending_go (walkers s)
                + main_pending_go (main s);
  inv_sema : Z.of_nat (sema s) = total holding (walkers s);
  inv_cap : (sema s <= sema_cap cap)%nat;
  inv_dispatch : dispatching (main s) = true <-> closer s = CNone;
  inv_waited : closer s = CClose \/ closer s = CExit -> n s = 0;
  inv_closed : closed s = true <-> closer s = CExit;
  inv_finished : finished (main s) = true -> closed s = true /\ fileSizes s = []
}.

(** The channel is a FIFO, the aggregator sums what it received, and the
    trace records the synchronisation operations performed so far. *)
Record trace_inv (tr : list event) (s : state) : Prop := {
  inv_fifo : sent tr = received tr ++ fileSizes s;
  inv_nfiles : nfiles s = wrap64 (Z.of_nat (length (received tr)));
  inv_nbytes : nbytes s = wrap64 (sumZ (received tr));
  inv_closes : occurrences is_close tr = if closed s then 1%nat else 0%nat;
  inv_tokens : (occurrences is_acquire tr = occurrences is_release tr + sema s)%nat;
  inv_counter : n s = Z.of_nat (occurrences is_add tr) - Z.of_nat (occurrences is_done tr);
  inv_spawned : length (walkers s) = occurrences is_go tr;
  inv_stderr : stderr s = flat_map (fun e => match e.2 with Stderr l => [l] | _ => [] end) tr;
  inv_stdout :
    stdout s = flat_map (fun e => match e.2 with Stdout l | Tick l => [l] | _ => [] end) tr;
  inv_reported : occurrences is_stdout tr = if exited (main s) then 1%nat else 0%nat;
  inv_acquired :
    Z.of_nat (occurrences is_acquire tr) + total waiting (walkers s)
    = Z.of_nat (length (walkers s));
  inv_read :
    Z.of_nat (occurrences is_readdir tr) + total reading (walkers s)
    = Z.of_nat (occurrences is_acquire tr)
}.

(** The tree a walker still has to account for. *)
Definition walker_tree (w : walker) (t : tree) : Prop :=
  match w with
  | WAcquire dir | WRead dir => mounted ReadDirF Join dir t
  | WReport dir err => t = Failed err
  | WRelease dir entries | WRange dir entries =>
      exists es, t = Entries es /\ entries = map info es
                 /\ mounted_all ReadDirF Join dir es
  | WGo dir e rest =>
      exists name size sub es,
        t = Entries (Dir name size sub :: es) /\ e = info (Dir name size sub)
        /\ rest = map info es /\ mounted ReadDirF Join (Join dir name) sub
        /\ mounted_all ReadDirF Join dir es
  | WExit => t = Entries []
  end.

(** Steps of the walk on its tree that a walker has already taken. *)
Definition walker_done (w : walker) : Z :=
  match w with
  | WAcquire _ => 0
  | WRead _ => 1
  | WReport _ _ | WRelease _ _ => 2
  | WRange _ _ => 3
  | WGo _ _ _ | WExit => 4
  end.

Definition walker_cost (wt : walker * tree) : Z :=
  Z.of_nat (cost wt.2) - walker_done wt.1.

(** The trees of the roots that [main] still has to dispatch. *)
Definition main_trees (m : main_pc) (ts : list tree) : Prop :=
  match m with
  | MRange rest => Forall2 (mounted ReadDirF Join) rest ts
  | MGo root rest => Forall2 (mounted ReadDirF Join) (root :: rest) ts
  | _ => ts = []
  end.

Definition main_cost (m : main_pc) (ts : list tree) : Z :=
  match m with
  | MRange _ => total (fun t => 2 + Z.of_nat (cost t)) ts + 3
  | MGo _ _ => total (fun t => 2 + Z.of_nat (cost t)) ts + 2
  | MSelect => 2
  | MFinal => 1
  | MExit => 0
  end.

Definition closer_cost (c : closer_pc) : Z :=
  match c with CNone | CWait => 2 | CClose => 1 | CExit => 0 end.

(** Steps that remain, the progress reports of [-v] apart. *)
Definition remaining (s : state) (wts : list (walker * tree)) (mts : list tree) : Z :=
  total walker_cost wts + main_cost (main s) mts + closer_cost (closer s)
  + Z.of_nat (length (fileSizes s)).

(** Steps taken so far, progress reports apart. *)
Definition work (tr : list event) : Z :=
  Z.of_nat (length (filter (fun e => is_tick e.2 = false) tr)).

(** Steps of a whole run over roots holding the trees [ts]. *)
Definition total_work (ts : list tree) : Z :=
  total (fun t => 2 + Z.of_nat (cost t)) ts + 5.

(** Conservation: what has been sent, reported and done, together with
    what the walkers [wts] (each with the tree it still has to account for)
    and the undispatched roots [mts] still owe, is what the root trees [T]
    hold. *)
Record data_inv (T : list tree) (tr : list event) (s : state)
    (wts : list (walker * tree)) (mts : list tree) : Prop := {
  inv_walkers : walkers s = wts.*1;
  inv_trees : Forall (fun wt => walker_tree wt.1 wt.2) wts;
  inv_main : main_trees (main s) mts;
  inv_sizes :
    sent tr ++ flat_map (fun wt => sizes wt.2) wts ++ flat_map sizes mts
    ≡ₚ flat_map sizes T;
  inv_errors :
    stderr s ++ map error_line (flat_map (fun wt => errors wt.2) wts)
             ++ error_lines mts
    ≡ₚ error_lines T;
  inv_dirs :
    total (fun wt => Z.of_nat (dirs wt.2)) wts + total (fun t => Z.of_nat (dirs t)) mts
    = total (fun t => Z.of_nat (dirs t)) T;
  inv_work : remaining s wts mts + work tr = total_work T
}.

End Invariants.

(** The trees of the roots other than [root]; [ts] are the trees at the
    roots [ds]. *)
Definition other_trees (root : string) (ds : list string) (ts : list tree) : list tree :=
  (filter (fun dt => String.eqb dt.1 root = false) (zip ds ts)).*2.

(** What walking a root on its own ends with. *)
Definition walked_alone (ReadDirF : string -> list FileInfo + string)
    (Join : string -> string -> string) (root : string) (totals : Z * Z) : Prop :=
  exists cap c tr s,
    roots c = [root] /\ run ReadDirF Join cap c tr s /\ exited (main s) = true
    /\ totals = (nfiles s, nbytes s).

(** ** Lines of text *)

(** Number of line terminators in a text. *)
Fixpoint count_nl (s : string) : nat :=
  match s with
  | EmptyString => 0
  | String a s' => (if Ascii.eqb a "010" then 1 else 0) + count_nl s'
  end.

(** The totals line of the final report, without its terminator. *)
Definition totals_line (nfiles nbytes elapsed : Z) : string :=
  ("Files: " ++ fmt_d nfiles ++ ", Size: " ++ fmt_f1 (gigabytes nbytes)
   ++ "GB, Avg FPS: " ++ fmt_d (wrap64 (Z.quot nfiles elapsed))
   ++ ", Elapsed: " ++ fmt_d elapsed ++ " seconds")%string.

(** The progress line, without its terminator. *)
Definition progress_line (nfiles nbytes elapsed goroutines : Z) : string :=
  ("Files: " ++ fmt_d nfiles ++ ", Size: " ++ fmt_f1 (gigabytes nbytes)
   ++ "GB, Goroutines: " ++ fmt_d goroutines
   ++ ", Cur FPS: " ++ fmt_d (wrap64 (Z.quot nfiles elapsed)))%string.

(** ** A scheduler and sample file systems *)

Section Scheduler.

Variable ReadDirF : string -> list FileInfo + string.
Variable Join : string -> string -> string.
Variable cap : caps.
Variable c : config.

Definition enabled (ch : choice) (s : state) : bool :=
  match step ReadDirF Join cap c ch s with Next _ _ => true | _ => false end.

(** Two orders of preference among the goroutines: walkers in order of
    creation, then the closer, then [main]; or [main], then the closer, then
    the walkers, youngest first.  [now] is what [main] reads from the clock. *)
Definition oldest_first (now : Z) (s : state) : list choice :=
  map StepWalker (seq 0 (length (walkers s))) ++ [StepCloser; StepMain now].
Definition main_first (now : Z) (s : state) : list choice :=
  [StepMain now; StepCloser] ++ map StepWalker (rev (seq 0 (length (walkers s)))).

(** The preferred goroutine among those that can run. *)
Definition pick (order : state -> list choice) (s : state) : option choice :=
  find (fun ch => enabled ch s) (order s).

Fixpoint schedule (fuel : nat) (order : state -> list choice) (s : state) : list choice :=
  match fuel with
  | O => []
  | S fuel' =>
      match pick order s with
      | Some ch =>
          match step ReadDirF Join cap c ch s with
          | Next _ s' => ch :: schedule fuel' order s'
          | _ => []
          end
      | None => []
      end
  end.

(** The run of that scheduler from the initial state. *)
Definition scheduled (fuel : nat) (order : state -> list choice)
    : option (list event * state) :=
  exec ReadDirF Join cap c (schedule fuel order (init c)) (init c).

Definition sample_run (fuel : nat) (now : Z) : option (list event * state) :=
  scheduled fuel (oldest_first now).

End Scheduler.

Local Open Scope string_scope.

(** [filepath.Join] on the paths of the samples: a leading [.] is dropped. *)
Definition sample_Join (dir name : string) : string :=
  if String.eqb dir "." then name else dir ++ "/" ++ name.

Definition no_such_dir (dir : string) : string :=
  "open " ++ dir ++ ": no such file or directory".

(** A directory with two files, a subdirectory holding one file and a
    subdirectory that may not be read. *)
Definition demo_tree : tree :=
  Entries [File "a.txt" 10;
           File "c" 5;
           Dir "locked" 4096 (Failed "open locked: permission denied");
           Dir "sub" 4096 (Entries [File "b" 20])].

Definition demo_ReadDir (dir : string) : list FileInfo + string :=
  if String.eqb dir "." then
    inl [ {| Name := "a.txt"; Size := 10; IsDir := false |};
          {| Name := "c"; Size := 5; IsDir := false |};
          {| Name := "locked"; Size := 4096; IsDir := true |};
          {| Name := "sub"; Size := 4096; IsDir := true |} ]
  else if String.eqb dir "sub" then inl [ {| Name := "b"; Size := 20; IsDir := false |} ]
  else if String.eqb dir "locked" then inr "open locked: permission denied"
  else inr (no_such_dir dir).

(** Sparse files of 2^62 bytes each: [x] in directory [a], [y] in directory
    [b], both in directory [.]. *)
Definition huge_tree : tree := Entries [File "x" (2 ^ 62); File "y" (2 ^ 62)].
Definition huge_a : tree := Entries [File "x" (2 ^ 62)].
Definition huge_b : tree := Entries [File "y" (2 ^ 62)].

Definition huge_ReadDir (dir : string) : list FileInfo + string :=
  if String.eqb dir "." then
    inl [ {| Name := "x"; Size := 2 ^ 62; IsDir := false |};
          {| Name := "y"; Size := 2 ^ 62; IsDir := false |} ]
  else if String.eqb dir "a" then inl [ {| Name := "x"; Size := 2 ^ 62; IsDir := false |} ]
  else if String.eqb dir "b" then inl [ {| Name := "y"; Size := 2 ^ 62; IsDir := false |} ]
  else inr (no_such_dir dir).

(** Command lines. *)
Definition cmdline (roots : list string) : config :=
  {| args := roots; vFlag := false; tOpt := None; NumCPU := 4; start := 100 |}.
Definition cmdline_v (roots : list string) : config :=
  {| args := roots; vFlag := true; tOpt := None; NumCPU := 4; start := 100 |}.
Definition cmdline_t (t : Z) (roots : list string) : config :=
  {| args := roots; vFlag := false; tOpt := Some t; NumCPU := 4; start := 100 |}.

(** A tree without failures: [.] holds a.txt, c and [sub]; [sub] holds b and
    [deep]; [sub/deep] holds d.  Listings are sorted by name, as [ReadDir]
    returns them. *)
Definition plain_tree : tree :=
  Entries [File "a.txt" 10;
           File "c" 5;
           Dir "sub" 4096 (Entries [File "b" 20; Dir "deep" 4096 (Entries [File "d" 7])])].

Definition plain_ReadDir (dir : string) : list FileInfo + string :=
  if String.eqb dir "." then
    inl [ {| Name := "a.txt"; Size := 10; IsDir := false |};
          {| Name := "c"; Size := 5; IsDir := false |};
          {| Name := "sub"; Size := 4096; IsDir := true |} ]
  else if String.eqb dir "sub" then
    inl [ {| Name := "b"; Size := 20; IsDir := false |};
          {| Name := "deep"; Size := 4096; IsDir := true |} ]
  else if String.eqb dir "sub/deep" then
    inl [ {| Name := "d"; Size := 7; IsDir := false |} ]
  else inr (no_such_dir dir).

(** The trace and the final state of a scheduled run ([init] when the
    schedule fails). *)
Definition outcome_of (c : config) (r : option (list event * state)) : list event * state :=
  default ([], init c) r.

(** The run of the sample scheduler under the capacities of the source,
    the clock reading 102 at the end. *)
Definition sample_trace (ReadDirF : string -> list FileInfo + string) (c : config)
    : list event :=
  (outcome_of c (sample_run ReadDirF sample_Join godu_caps c 100 102)).1.
Definition sample_final (ReadDirF : string -> list FileInfo + string) (c : config)
    : state :=
  (outcome_of c (sample_run ReadDirF sample_Join godu_caps c 100 102)).2.

(** [godu .] on the demo directory. *)
Definition demo_cfg : config := cmdline ["."].
Definition demo_trace : list event := sample_trace demo_ReadDir demo_cfg.
Definition demo_final : state := sample_final demo_ReadDir demo_cfg.

(** [godu .] on the plain directory. *)
Definition plain_trace : list event := sample_trace plain_ReadDir demo_cfg.
Definition plain_final : state := sample_final plain_ReadDir demo_cfg.

(** The same under the other order of preference, the clock still reading
    100 at the end. *)
Definition reversed_trace : list event :=
  (outcome_of demo_cfg
     (scheduled plain_ReadDir sample_Join godu_caps demo_cfg 100 (main_first 100))).1.
Definition reversed_final : state :=
  (outcome_of demo_cfg
     (scheduled plain_ReadDir sample_Join godu_caps demo_cfg 100 (main_first 100))).2.

(** [godu .] on the directory of the two sparse files. *)
Definition huge_trace : list event := sample_trace huge_ReadDir demo_cfg.
Definition huge_final : state := sample_final huge_ReadDir demo_cfg.

(** [godu a b], [godu a] and [godu b] on the sparse files. *)
Definition ab_cfg : config := cmdline ["a"; "b"].
Definition ab_final : state := sample_final huge_ReadDir ab_cfg.
Definition a_final : state := sample_final huge_ReadDir (cmdline ["a"]).
Definition b_final : state := sample_final huge_ReadDir (cmdline ["b"]).

(** [godu -t 1 a b], and [godu a b] on a machine with one processor. *)
Definition one_thread_cfg : config := cmdline_t 1 ["a"; "b"].
Definition one_cpu_cfg : config :=
  {| args := ["a"; "b"]; vFlag := false; tOpt := None; NumCPU := 1; start := 100 |}.

(** Both roots are dispatched, then both walkers enter [dirents]. *)
Definition two_readers : list choice :=
  [StepMain 100; StepMain 100; StepMain 100; StepMain 100; StepWalker 0; StepWalker 1].

Definition two_readers_trace : list event :=
  (outcome_of one_thread_cfg
     (exec huge_ReadDir sample_Join godu_caps one_thread_cfg two_readers
           (init one_thread_cfg))).1.
Definition two_readers_state : state :=
  (outcome_of one_thread_cfg
     (exec huge_ReadDir sample_Join godu_caps one_thread_cfg two_readers
           (init one_thread_cfg))).2.

(** [godu -v .] on the plain directory: the sample schedule with two ticks
    of the progress timer inserted before its last two steps (the receive
    that finds the channel closed, and the final report). *)
Definition verbose_cfg : config := cmdline_v ["."].
Definition verbose_schedule : list choice :=
  let sched :=
    schedule plain_ReadDir sample_Join godu_caps verbose_cfg 100 (oldest_first 102)
             (init verbose_cfg) in
  take (length sched - 2) sched ++ [StepTick 100 2; StepTick 101 2]
  ++ drop (length sched - 2) sched.
Definition verbose_final : state :=
  (outcome_of verbose_cfg
     (exec plain_ReadDir sample_Join godu_caps verbose_cfg verbose_schedule
           (init verbose_cfg))).2.

(** A gate without capacity, and the state of [godu .] once the root is
    dispatched and the closer started. *)
Definition no_gate : caps := {| sema_cap := 0; fileSizes_cap := 256 |}.
Definition stuck_state : state :=
  (outcome_of demo_cfg
     (exec plain_ReadDir sample_Join no_gate demo_cfg
           [StepMain 100; StepMain 100; StepMain 100] (init demo_cfg))).2.

(** [godu missing] on the demo directory. *)
Definition missing_cfg : config := cmdline ["missing"].
Definition missing_trace : list event := sample_trace demo_ReadDir missing_cfg.
Definition missing_final : state := sample_final demo_ReadDir missing_cfg.

(** A directory whose name holds a line feed and which may not be read: the
    description of the error quotes the name. *)
Definition lf_name : string := "a" ++ nl ++ "b".
Definition lf_error : string := "open " ++ lf_name ++ ": permission denied".
Definition lf_ReadDir (dir : string) : list FileInfo + string :=
  if String.eqb dir lf_name then inr lf_error else inr (no_such_dir dir).
Definition lf_cfg : config := cmdline [lf_name].
Definition lf_trace : list event := sample_trace lf_ReadDir lf_cfg.
Definition lf_final : state := sample_final lf_ReadDir lf_cfg.

(** The tree below [sub] in the plain directory. *)
Definition plain_sub : tree :=
  Entries [File "b" 20; Dir "deep" 4096 (Entries [File "d" 7])].

(** [godu sub . sub] on the plain directory. *)
Definition mixed_cfg : config := cmdline ["sub"; "."; "sub"].
Definition mixed_trace : list event := sample_trace plain_ReadDir mixed_cfg.
Definition mixed_final : state := sample_final plain_ReadDir mixed_cfg.

Local Close Scope string_scope.

(** ** Further observations *)

(** The trace of the run of [godu -v .] above. *)
Definition verbose_trace : list event :=
  (outcome_of verbose_cfg
     (exec plain_ReadDir sample_Join godu_caps verbose_cfg verbose_schedule
           (init verbose_cfg))).1.

(** A walker that has returned. *)
Definition returned (w : walker) : Z :=
  match w with WExit => 1 | _ => 0 end.

(** The directories read, oldest first. *)
Definition readdirs (tr : list event) : list string :=
  flat_map (fun e => match e.2 with ReadDir d => [d] | _ => [] end) tr.

(** [dirents] as a function: what it writes to the error stream and what it
    returns ([nil] after an error). *)
Definition dirents (ReadDirF : string -> list FileInfo + string) (dir : string)
    : list string * list FileInfo :=
  match ReadDirF dir with
  | inl entries => ([], entries)
  | inr err => ([error_line err], [])
  end.

(** The paths under which the directories of a tree are read when the tree
    is walked from [dir]. *)
Fixpoint dir_paths (Join : string -> string -> string) (dir : string) (t : tree)
    : list string :=
  dir :: match t with
         | Failed _ => []
         | Entries es => flat_map (entry_paths Join dir) es
         end
with entry_paths (Join : string -> string -> string) (dir : string) (e : entry)
    : list string :=
  match e with
  | File _ _ => []
  | Dir name _ sub => dir_paths Join (Join dir name) sub
  end.

(** The paths read when the roots [ds], holding the trees [ts], are walked. *)
Definition paths_of (Join : string -> string -> string) (ds : list string)
    (ts : list tree) : list string :=
  flat_map (fun dt => dir_paths Join dt.1 dt.2) (zip ds ts).

(** The paths a walker has still to read or to hand to further walkers; [t]
    is the tree it still has to account for. *)
Definition walker_paths (Join : string -> string -> string) (wt : walker * tree)
    : list string :=
  match wt.1 with
  | WAcquire dir | WRead dir => dir_paths Join dir wt.2
  | WRelease dir _ | WRange dir _ | WGo dir _ _ =>
      match wt.2 with
      | Entries es => flat_map (entry_paths Join dir) es
      | Failed _ => []
      end
  | WReport _ _ | WExit => []
  end.

(** The roots that [main] has still to dispatch. *)
Definition main_roots (m : main_pc) : list string :=
  match m with
  | MRange rest => rest
  | MGo root rest => root :: rest
  | _ => []
  end.

(** Conservation of the paths: those read, with those the walkers and [main]
    have still to get read, are those of the root trees. *)
Record path_inv (ReadDirF : string -> list FileInfo + string)
    (Join : string -> string -> string) (c : config) (T : list tree)
    (tr : list event) (s : state) (wts : list (walker * tree)) (mts : list tree)
    : Prop := {
  pinv_walkers : walkers s = wts.*1;
  pinv_trees : Forall (fun wt => walker_tree ReadDirF Join wt.1 wt.2) wts;
  pinv_main : main_trees ReadDirF Join (main s) mts;
  pinv_paths :
    readdirs tr ++ flat_map (walker_paths Join) wts
                ++ paths_of Join (main_roots (main s)) mts
    ≡ₚ paths_of Join (roots c) T
}.

(** ** [walkDir], run without interruption *)

(** The subdirectories among the entries of [dir], and the sizes of the
    other entries, both in the order of the listing. *)
Definition subdirs (Join : string -> string -> string) (dir : string)
    (entries : list FileInfo) : list string :=
  flat_map (fun e => if IsDir e then [Join dir (Name e)] else []) entries.

Definition file_sizes (entries : list FileInfo) : list Z :=
  flat_map (fun e => if IsDir e then [] else [Size e]) entries.

(** The operations of the loop of [walkDir] over [entries]. *)
Definition range_events (Join : string -> string -> string) (i : nat) (dir : string)
    (entries : list FileInfo) : list event :=
  flat_map (fun e => if IsDir e
                     then [(TWalker i, Add); (TWalker i, Go (Join dir (Name e)))]
                     else [(TWalker i, Send (Size e))]) entries.

(** The operations of one call [walkDir(dir)], in program order. *)
Definition walkDir_events (ReadDirF : string -> list FileInfo + string)
    (Join : string -> string -> string) (i : nat) (dir : string) : list event :=
  [(TWalker i, Acquire); (TWalker i, ReadDir dir)]
  ++ map (fun l => (TWalker i, Stderr l)) (dirents ReadDirF dir).1
  ++ [(TWalker i, Release)]
  ++ range_events Join i dir (dirents ReadDirF dir).2
  ++ [(TWalker i, Done)].

(** The state that the call [walkDir(dir)] of walker [i] leaves. *)
Definition walkDir_state (ReadDirF : string -> list FileInfo + string)
    (Join : string -> string -> string) (i : nat) (dir : string) (s : state) : state :=
  let r := dirents ReadDirF dir in
  with_walkers (<[i := WExit]> (walkers s) ++ map WAcquire (subdirs Join dir r.2))
    (with_fileSizes (fileSizes s ++ file_sizes r.2)
       (with_n (n s + Z.of_nat (length (subdirs Join dir r.2)) - 1)
          (with_stderr (stderr s ++ r.1) s))).

(** [godu .] on the sample tree when [main] has started the walker of the
    root and nothing else has happened. *)
Definition dispatched_trace : list event :=
  (outcome_of demo_cfg
     (exec demo_ReadDir sample_Join godu_caps demo_cfg [StepMain 100; StepMain 100]
           (init demo_cfg))).1.
Definition dispatched_state : state :=
  (outcome_of demo_cfg
     (exec demo_ReadDir sample_Join godu_caps demo_cfg [StepMain 100; StepMain 100]
           (init demo_cfg))).2.

(** * Proofs *)

Global Arguments error_line : simpl never.
Global Arguments wrap64 : simpl never.

(** ** Lists *)

Section Lists.
Context {A : Type}.
Implicit Types (f : A -> Z) (l k : list A).

Lemma total_app f l k : total f (l ++ k) = total f l + total f k.
Proof. induction l as [|x l IH]; simpl; lia. Qed.

Lemma total_insert f l i x y :
  l !! i = Some x -> total f (<[i:=y]> l) = total f l - f x + f y.
Proof.
  revert i. induction l as [|z l IH]; intros [|i] Hi; simplify_eq/=; [lia|].
  rewrite (IH _ Hi). lia.
Qed.

Lemma total_nonneg f l : (forall x, 0 <= f x) -> 0 <= total f l.
Proof. intros Hf. induction l as [|x l IH]; simpl; [lia|]. specialize (Hf x). lia. Qed.

Lemma total_zero f l :
  (forall x, 0 <= f x) -> total f l = 0 -> Forall (fun x => f x = 0) l.
Proof.
  intros Hf. induction l as [|x l IH]; simpl; intros H0; constructor.
  - pose proof (total_nonneg f l Hf). specialize (Hf x). lia.
  - apply IH. pose proof (total_nonneg f l Hf). specialize (Hf x). lia.
Qed.

Lemma total_pos_lookup f l :
  (forall x, 0 <= f x) -> 0 < total f l -> exists i x, l !! i = Some x /\ 0 < f x.
Proof.
  intros Hf. induction l as [|x l IH]; simpl; [lia|]. intros Hpos.
  destruct (Z_lt_le_dec 0 (f x)) as [Hx|Hx].
  - exists 0%nat, x. auto.
  - destruct IH as (i & y & Hi & Hy); [specialize (Hf x); lia|].
    exists (S i), y. auto.
Qed.

Lemma total_lookup_le f l i x :
  (forall x, 0 <= f x) -> l !! i = Some x -> f x <= total f l.
Proof.
  intros Hf. revert i. induction l as [|z l IH]; intros [|i] Hi; simplify_eq/=.
  - pose proof (total_nonneg f l Hf). lia.
  - specialize (IH _ Hi). specialize (Hf z). lia.
Qed.

Lemma total_le f g l : (forall x, f x <= g x) -> total f l <= total g l.
Proof. intros Hfg. induction l as [|x l IH]; simpl; [lia|]. specialize (Hfg x). lia. Qed.

Lemma flat_map_snoc {B} (g : A -> list B) l x : flat_map g (l ++ [x]) = flat_map g l ++ g x.
Proof. rewrite flat_map_app. simpl. by rewrite app_nil_r. Qed.

Lemma flat_map_insert {B} (g : A -> list B) l i x y :
  l !! i = Some x ->
  exists rest, flat_map g l ≡ₚ g x ++ rest /\ flat_map g (<[i:=y]> l) ≡ₚ g y ++ rest.
Proof.
  intros Hi. exists (flat_map g (take i l) ++ flat_map g (drop (S i) l)).
  rewrite insert_take_drop by (by eapply lookup_lt_Some).
  rewrite <- (take_drop_middle l i x Hi) at 1.
  rewrite !flat_map_app. simpl. split; solve_Permutation.
Qed.

Lemma snoc_eq_middle (l l1 l2 : list A) x e :
  l ++ [x] = l1 ++ e :: l2 ->
  (l2 = [] /\ l = l1 /\ x = e) \/ exists l2', l2 = l2' ++ [x] /\ l = l1 ++ e :: l2'.
Proof.
  destruct l2 as [|y l2 _] using rev_ind; intros Heq.
  - apply app_inj_tail in Heq as [-> ->]. by left.
  - right. exists l2. change (l ++ [x] = l1 ++ (e :: l2) ++ [y]) in Heq.
    rewrite app_assoc in Heq. apply app_inj_tail in Heq as [-> ->]. done.
Qed.

Lemma filter_snoc (P : A -> Prop) `{!forall x, Decision (P x)} l x :
  filter P (l ++ [x]) = filter P l ++ (if decide (P x) then [x] else []).
Proof. by rewrite filter_app. Qed.

End Lists.

Lemma sumZ_app l k : sumZ (l ++ k) = sumZ l + sumZ k.
Proof. unfold sumZ. induction l as [|x l IH]; simpl; lia. Qed.

Lemma sumZ_perm l k : l ≡ₚ k -> sumZ l = sumZ k.
Proof. unfold sumZ. induction 1; simpl; lia. Qed.

Lemma occurrences_snoc p tr e :
  occurrences p (tr ++ [e]) = (occurrences p tr + if p e.2 then 1 else 0)%nat.
Proof.
  unfold occurrences. rewrite filter_snoc, length_app.
  destruct (decide (p e.2 = true)) as [Hp|Hp]; simpl.
  - by rewrite Hp.
  - destruct (p e.2); done.
Qed.

Lemma occurrences_middle p tr1 e tr2 :
  p e.2 = true -> (1 <= occurrences p (tr1 ++ e :: tr2))%nat.
Proof.
  intros Hp. unfold occurrences. rewrite filter_app, filter_cons, length_app.
  rewrite decide_True by done. simpl. lia.
Qed.

Lemma work_snoc tr e :
  work (tr ++ [e]) = work tr + (if is_tick e.2 then 0 else 1).
Proof.
  unfold work. rewrite filter_snoc, length_app.
  case_decide as He; rewrite He || (destruct (is_tick e.2); [|done]); simpl.
  all: rewrite Nat2Z.inj_add; f_equal.
Qed.

Lemma last_of_snoc g tr e :
  last_of g (tr ++ [e]) = if decide (e.1 = g) then Some e.2 else last_of g tr.
Proof.
  unfold last_of, history. rewrite filter_snoc. case_decide.
  - rewrite fmap_app. simpl. apply last_snoc.
  - by rewrite app_nil_r.
Qed.

Lemma sent_snoc tr e :
  sent (tr ++ [e]) = sent tr ++ match e.2 with Send v => [v] | _ => [] end.
Proof. apply flat_map_snoc. Qed.

Lemma received_snoc tr e :
  received (tr ++ [e]) = received tr ++ match e.2 with Recv v => [v] | _ => [] end.
Proof. apply flat_map_snoc. Qed.

(** ** int64 *)

Lemma wrap64_range z : - 2 ^ 63 <= wrap64 z < 2 ^ 63.
Proof. unfold wrap64. pose proof (Z.mod_pos_bound (z + 2 ^ 63) (2 ^ 64)). lia. Qed.

Lemma wrap64_small z : - 2 ^ 63 <= z < 2 ^ 63 -> wrap64 z = z.
Proof. intros H. unfold wrap64. rewrite Z.mod_small; lia. Qed.

Lemma wrap64_add_l a b : wrap64 (wrap64 a + b) = wrap64 (a + b).
Proof.
  unfold wrap64. f_equal.
  replace ((a + 2 ^ 63) mod 2 ^ 64 - 2 ^ 63 + b + 2 ^ 63)
    with ((a + 2 ^ 63) mod 2 ^ 64 + b) by lia.
  rewrite Zplus_mod_idemp_l. f_equal. lia.
Qed.

Lemma wrap64_add a b : wrap64 (wrap64 a + wrap64 b) = wrap64 (a + b).
Proof. rewrite wrap64_add_l, Z.add_comm, wrap64_add_l. f_equal. lia. Qed.

(** ** Reporters *)

Lemma clamp_elapsed_nonzero e : clamp_elapsed e <> 0.
Proof. unfold clamp_elapsed. destruct (Z.eqb_spec e 0); lia. Qed.

Lemma rate_defined a e :
  int64_div a (clamp_elapsed e) = Some (wrap64 (Z.quot a (clamp_elapsed e))).
Proof.
  unfold int64_div. pose proof (clamp_elapsed_nonzero e) as H.
  apply Z.eqb_neq in H. by rewrite H.
Qed.

Lemma printDiskUsage_defined nfiles nbytes start stop :
  is_Some (printDiskUsage nfiles nbytes start stop).
Proof. unfold printDiskUsage. rewrite rate_defined. eauto. Qed.

Lemma printProgress_defined nfiles nbytes start now g :
  is_Some (printProgress nfiles nbytes start now g).
Proof. unfold printProgress. rewrite rate_defined. eauto. Qed.

Lemma exited_finished m : exited m = true -> finished m = true.
Proof. by destruct m. Qed.

(** ** Case analysis of a step *)

(** Splits the hypothesis [H : step ... = ...] into the cases of the step
    functions, one per operation of the source. *)
Ltac step_inv H :=
  unfold step, step_main, step_tick, step_closer, step_walker in H;
  repeat (cbv beta iota zeta in H;
          match type of H with
          | context [match ?x with _ => _ end] => destruct x eqn:?
          end);
  cbv beta iota zeta in H; simplify_eq.

(** Rewrites with what the case analysis found about the program points. *)
Ltac use_pcs :=
  repeat match goal with
         | H : main ?s = _ |- context [main ?s] => rewrite H
         | H : closer ?s = _ |- context [closer ?s] => rewrite H
         | H : closed ?s = _ |- context [closed ?s] => rewrite H
         | H : fileSizes ?s = _ |- context [fileSizes ?s] => rewrite H
         end.

(** Boolean tests of the step functions, as propositions. *)
Ltac bools :=
  repeat match goal with
         | H : (_ <? _)%nat = true |- _ => apply Nat.ltb_lt in H
         | H : (_ <? _)%nat = false |- _ => apply Nat.ltb_ge in H
         | H : (_ <=? _)%Z = true |- _ => apply Z.leb_le in H
         | H : (_ <=? _)%Z = false |- _ => apply Z.leb_gt in H
         | H : (_ =? _)%Z = true |- _ => apply Z.eqb_eq in H
         | H : (_ =? _)%Z = false |- _ => apply Z.eqb_neq in H
         end.

(** Exhibits the step that a case of the step function takes. *)
Ltac stepped := do 2 eexists; split; [|reflexivity]; reflexivity.

(** Sums over the walkers after one of them has moved or one has been added. *)
Ltac totals :=
  rewrite ?total_app; erewrite ?total_insert by eassumption; simpl.

Section Sync.

Variable ReadDirF : string -> list FileInfo + string.
Variable Join : string -> string -> string.
Variable cap : caps.
Variable c : config.

Lemma live_nonneg w : 0 <= live w.
Proof. destruct w; simpl; lia. Qed.
Lemma pending_go_nonneg w : 0 <= pending_go w.
Proof. destruct w; simpl; lia. Qed.
Lemma holding_nonneg w : 0 <= holding w.
Proof. destruct w; simpl; lia. Qed.

Lemma sync_inv_init : sync_inv cap (init c).
Proof. split; simpl; try done; try lia; intuition congruence. Qed.

Lemma sync_inv_step ch s a s' :
  sync_inv cap s -> step ReadDirF Join cap c ch s = Next a s' -> sync_inv cap s'.
Proof.
  intros [Hn Hs Hc Hd Hw Hcl Hf] Hstep.
  step_inv Hstep.
  all: split; simpl in *; use_pcs; simpl.
  all: try (totals; lia).
  all: try tauto.
  all: try (intuition congruence).
  all: bools.
  - lia.
  - intros Hc'. specialize (Hw Hc'). lia.
  - intros Hc'. specialize (Hw Hc').
    pose proof (total_lookup_le live _ _ _ live_nonneg Heqo) as Hl. simpl in Hl.
    pose proof (total_nonneg pending_go (walkers s) pending_go_nonneg).
    pose proof (total_nonneg live (walkers s) live_nonneg).
    destruct (main s); simpl in *; lia.
Qed.

(** A live walker keeps the counter positive. *)
Lemma live_counter s i w :
  sync_inv cap s -> walkers s !! i = Some w -> w <> WExit -> 0 < n s.
Proof.
  intros Hsync Hi Hw. pose proof (inv_n _ _ Hsync) as Hn.
  pose proof (total_lookup_le live _ _ _ live_nonneg Hi) as Hl.
  pose proof (total_nonneg pending_go (walkers s) pending_go_nonneg).
  assert (0 <= main_pending_go (main s)) by (destruct (main s); simpl; lia).
  assert (live w = 1) by (destruct w; simpl; congruence). lia.
Qed.

(** No step of a reachable state panics: no send on the closed channel, no
    negative WaitGroup counter, no second close, no division by zero. *)
Lemma sync_inv_safe s ch msg :
  sync_inv cap s -> step ReadDirF Join cap c ch s <> Panic msg.
Proof.
  intros Hsync Hstep.
  unfold step, step_main, step_tick, step_closer, step_walker in Hstep.
  repeat (cbv beta iota zeta in Hstep;
          match type of Hstep with
          | context [match ?x with _ => _ end] => destruct x eqn:?
          end); simplify_eq; bools.
  - destruct (printDiskUsage_defined (nfiles s) (nbytes s) (start c) now) as [? ?].
    congruence.
  - destruct (printProgress_defined (nfiles s) (nbytes s) (start c) now goroutines)
      as [? ?]. congruence.
  - assert (closer s = CExit) by by apply (inv_closed _ _ Hsync). congruence.
  - assert (0 < n s) by (eapply live_counter; done). lia.
  - assert (closer s = CExit) as Hc by by apply (inv_closed _ _ Hsync).
    assert (n s = 0) by (apply (inv_waited _ _ Hsync); auto).
    assert (0 < n s) by (eapply live_counter; done). lia.
Qed.

(** Freedom from deadlock: while [main] has not returned, some goroutine can
    take a step that is not a progress report. *)
Lemma progress s :
  (1 <= sema_cap cap)%nat -> (1 <= fileSizes_cap cap)%nat ->
  sync_inv cap s -> exited (main s) = false ->
  exists ch a s', is_tick a = false /\ step ReadDirF Join cap c ch s = Next a s'.
Proof.
  intros Hsc Hfc Hsync Hex. unfold step. rewrite Hex.
  destruct (main s) as [[|root rest]|root rest| | |] eqn:Hm; try done.
  - exists (StepMain 0). unfold step_main. rewrite Hm. stepped.
  - exists (StepMain 0). unfold step_main. rewrite Hm. stepped.
  - exists (StepMain 0). unfold step_main. rewrite Hm. stepped.
  - destruct (fileSizes s) as [|v buf] eqn:Hbuf.
    2: { exists (StepMain 0). unfold step_main. rewrite Hm, Hbuf. stepped. }
    destruct (closed s) eqn:Hcl.
    { exists (StepMain 0). unfold step_main. rewrite Hm, Hbuf, Hcl. stepped. }
    destruct (closer s) eqn:Hc.
    + assert (dispatching (main s) = true) by by apply (inv_dispatch _ _ Hsync).
      by rewrite Hm in *.
    + destruct (Z.eqb_spec (n s) 0) as [H0|H0].
      { exists StepCloser. unfold step_closer. rewrite Hc, H0. simpl. stepped. }
      pose proof (inv_n _ _ Hsync) as Hn. rewrite Hm in Hn. simpl in Hn.
      pose proof (inv_sema _ _ Hsync) as Hsema.
      pose proof (total_nonneg pending_go (walkers s) pending_go_nonneg).
      pose proof (total_nonneg holding (walkers s) holding_nonneg).
      assert (total pending_go (walkers s) <= total live (walkers s)).
      { apply total_le. intros []; simpl; lia. }
      destruct (Z_lt_le_dec 0 (total holding (walkers s))) as [Hh|Hh].
      * destruct (total_pos_lookup holding _ holding_nonneg Hh) as (i & w & Hi & Hw).
        exists (StepWalker i). unfold step_walker. rewrite Hi.
        destruct w; simpl in Hw; try lia.
        -- destruct (ReadDirF dir); stepped.
        -- stepped.
        -- destruct (sema s); [lia|stepped].
      * assert (0 < total live (walkers s)) as Hl by lia.
        destruct (total_pos_lookup live _ live_nonneg Hl) as (i & w & Hi & Hw).
        pose proof (total_lookup_le holding _ _ _ holding_nonneg Hi) as Hhw.
        exists (StepWalker i). unfold step_walker. rewrite Hi.
        destruct w as [dir|dir|dir err|dir es|dir [|e es]|dir e es|];
          simpl in Hw, Hhw; try lia.
        -- assert ((sema s <? sema_cap cap)%nat = true) as -> by (apply Nat.ltb_lt; lia).
           stepped.
        -- assert ((n s <=? 0) = false) as -> by (apply Z.leb_gt; lia). stepped.
        -- destruct (IsDir e); [stepped|]. rewrite Hcl, Hbuf. simpl.
           assert ((0 <? fileSizes_cap cap)%nat = true) as -> by (apply Nat.ltb_lt; lia).
           stepped.
        -- stepped.
    + exists StepCloser. unfold step_closer. rewrite Hc, Hcl. stepped.
    + assert (closed s = true) by by apply (inv_closed _ _ Hsync). congruence.
  - exists (StepMain 0). unfold step_main. rewrite Hm.
    destruct (printDiskUsage_defined (nfiles s) (nbytes s) (start c) 0) as [text ->].
    stepped.
Qed.

Lemma order_inv_init : order_inv [] (init c).
Proof. split; simpl; try done. by left. Qed.

Lemma order_inv_step tr ch s a s' :
  sync_inv cap s -> order_inv tr s ->
  step ReadDirF Join cap c ch s = Next a s' -> order_inv (tr ++ [(tid_of ch, a)]) s'.
Proof.
  intros Hsync [Hw Hu Hm Hc] Hstep.
  step_inv Hstep.
  all: split; [intros j w' Hj|intros j Hj| |]; rewrite last_of_snoc; simpl in *.
  all: try (case_decide; simplify_eq).
  all: use_pcs; simpl; rewrite ?length_insert, ?length_app in *; simpl in *.
  all: try (by eauto).
  all: try (by apply Hu; lia).
  all: try match goal with
           | Hi : walkers _ !! ?i = Some _, Hl : (length (walkers _) <= ?i)%nat |- _ =>
               apply lookup_lt_Some in Hi; lia
           | Hi : walkers _ !! ?i = Some _, Hl : (length (walkers _) + 1 <= ?i)%nat |- _ =>
               apply lookup_lt_Some in Hi; lia
           end.
  all: try match goal with
           | Hi : walkers ?s !! ?i = Some _, H : <[?i:=_]> (walkers ?s) !! ?i = Some _ |- _ =>
               rewrite list_lookup_insert_eq in H by (by eapply lookup_lt_Some);
               simplify_eq; simpl; by eauto
           | Hne : TWalker ?i <> TWalker ?j, H : <[?i:=_]> (walkers ?s) !! ?j = Some _ |- _ =>
               rewrite list_lookup_insert_ne in H by congruence; by eauto
           end.
  - assert (closer s = CNone) as Hn by (apply Hsync; by rewrite Heqm).
    by rewrite Hn in Hc.
  - apply lookup_app_Some in Hj as [Hj|[Hlen Hj]]; [by eauto|].
    apply list_lookup_singleton_Some in Hj as [_ <-]. simpl. apply Hu. lia.
  - rewrite lookup_app_l in Hj by (rewrite length_insert; by eapply lookup_lt_Some).
    rewrite list_lookup_insert_eq in Hj by (by eapply lookup_lt_Some).
    simplify_eq. simpl. eauto.
  - apply lookup_app_Some in Hj as [Hj|[Hlen Hj]].
    + rewrite list_lookup_insert_ne in Hj by congruence. by eauto.
    + apply list_lookup_singleton_Some in Hj as [_ <-]. simpl. apply Hu.
      rewrite length_insert in Hlen. lia.
  - apply lookup_lt_Some in Heqo. rewrite length_insert in Hj. lia.
  - apply Hu. rewrite length_insert in Hj. lia.
Qed.

Lemma trace_inv_init : trace_inv [] (init c).
Proof. split; simpl; done. Qed.

Lemma trace_inv_step tr ch s a s' :
  sync_inv cap s -> trace_inv tr s ->
  step ReadDirF Join cap c ch s = Next a s' -> trace_inv (tr ++ [(tid_of ch, a)]) s'.
Proof.
  intros Hsync [Hfifo Hnf Hnb Hcl Htok Hcnt Hsp Herr Hout Hrep Hacq Hrd] Hstep.
  step_inv Hstep.
  all: split; rewrite ?sent_snoc, ?received_snoc, ?occurrences_snoc, ?flat_map_snoc.
  all: simpl in *; use_pcs; simpl; rewrite ?app_nil_r.
  all: rewrite ?length_app, ?length_insert; simpl.
  all: try done.
  all: try (totals; lia).
  all: try (destruct (main s); simpl in *; done || lia).
  - by rewrite Hfifo, app_nil_r.
  - by rewrite Hfifo, <- app_assoc.
  - unfold int64_add. rewrite Hnf, wrap64_add_l. f_equal. lia.
  - unfold int64_add. rewrite Hnb, wrap64_add_l, sumZ_app. f_equal. simpl. lia.
  - by rewrite Hout.
  - by rewrite Hout.
  - by rewrite Herr.
  - by rewrite Hfifo, app_assoc.
Qed.

(** When [n] is zero every walker has returned. *)
Lemma all_exited_sync s :
  sync_inv cap s -> n s = 0 -> Forall (fun w => w = WExit) (walkers s).
Proof.
  intros Hsync H0. pose proof (inv_n _ _ Hsync) as Hn.
  pose proof (total_nonneg live (walkers s) live_nonneg).
  pose proof (total_nonneg pending_go (walkers s) pending_go_nonneg).
  assert (0 <= main_pending_go (main s)) by (destruct (main s); simpl; lia).
  assert (total live (walkers s) = 0) as Hl by lia.
  apply (total_zero live _ live_nonneg) in Hl.
  eapply Forall_impl; [exact Hl|]. intros [] ?; simpl in *; done || lia.
Qed.

Lemma run_sync tr s :
  run ReadDirF Join cap c tr s -> sync_inv cap s /\ trace_inv tr s /\ order_inv tr s.
Proof.
  induction 1 as [|tr s ch a s' Hrun (Hsync & Htr & Hord) Hstep].
  - split; [apply sync_inv_init|]. split; [apply trace_inv_init|apply order_inv_init].
  - split; [by eapply sync_inv_step|]. split; [by eapply trace_inv_step|].
    by eapply order_inv_step.
Qed.

Lemma exec_run sched : forall tr s tr' s',
  run ReadDirF Join cap c tr s ->
  exec ReadDirF Join cap c sched s = Some (tr', s') ->
  run ReadDirF Join cap c (tr ++ tr') s'.
Proof.
  induction sched as [|ch sched IH]; intros tr s tr' s' Hrun Hexec; simpl in Hexec.
  - simplify_eq. by rewrite app_nil_r.
  - destruct (step ReadDirF Join cap c ch s) as [| |a s1] eqn:Hstep; try done.
    destruct (exec ReadDirF Join cap c sched s1) as [[tr1 s2]|] eqn:Hrest; simplify_eq.
    rewrite (cons_middle _ tr tr1), app_assoc. eapply IH; [|done].
    by econstructor.
Qed.

Lemma exec_init_run sched tr s :
  exec ReadDirF Join cap c sched (init c) = Some (tr, s) -> run ReadDirF Join cap c tr s.
Proof. intros H. apply (exec_run sched [] _ _ _ (run_init _ _ _ _) H). Qed.

Lemma step_order tr s ch a s' :
  order_inv tr s -> step ReadDirF Join cap c ch s = Next a s' ->
  program_order a (last_of (tid_of ch) tr).
Proof.
  intros [Hw _ Hm Hc] Hstep.
  step_inv Hstep; simpl in *; try done.
  all: try (by specialize (Hw _ _ Heqo)).
  all: specialize (Hw _ _ Heqo); simpl in Hw.
  - eauto.
  - destruct Hw; eauto.
Qed.

(** No step of a run panics. *)
Lemma run_safe tr s ch msg :
  run ReadDirF Join cap c tr s -> step ReadDirF Join cap c ch s <> Panic msg.
Proof. intros Hrun. apply sync_inv_safe. by apply (run_sync _ _ Hrun). Qed.

(** The step behind each event of a trace. *)
Lemma run_split tr s :
  run ReadDirF Join cap c tr s ->
  forall tr1 e tr2, tr = tr1 ++ e :: tr2 ->
  exists s1 ch s1',
    run ReadDirF Join cap c tr1 s1 /\ step ReadDirF Join cap c ch s1 = Next e.2 s1'
    /\ e.1 = tid_of ch.
Proof.
  induction 1 as [|tr s ch a s' Hrun IH Hstep]; intros tr1 e tr2 Heq.
  - by destruct tr1.
  - apply snoc_eq_middle in Heq as [(-> & -> & <-)|(tr2' & -> & ->)]; [|by eapply IH].
    exists s, ch, s'. done.
Qed.

Lemma event_order tr s :
  run ReadDirF Join cap c tr s ->
  forall tr1 g a tr2, tr = tr1 ++ (g, a) :: tr2 -> program_order a (last_of g tr1).
Proof.
  intros Hrun tr1 g a tr2 Heq.
  destruct (run_split _ _ Hrun _ _ _ Heq) as (s1 & ch & s1' & Hrun1 & Hstep & Hg).
  simpl in *. subst g. eapply step_order; [|done]. by apply (run_sync _ _ Hrun1).
Qed.

Lemma finished_sync s :
  sync_inv cap s -> finished (main s) = true ->
  n s = 0 /\ Forall (fun w => w = WExit) (walkers s) /\ sema s = 0%nat.
Proof.
  intros Hsync Hfin. destruct (inv_finished _ _ Hsync Hfin) as [Hcl _].
  assert (n s = 0) as Hn.
  { apply (inv_waited _ _ Hsync). right. by apply (inv_closed _ _ Hsync). }
  pose proof (all_exited_sync _ Hsync Hn) as Hex.
  split; [done|]. split; [done|].
  pose proof (inv_sema _ _ Hsync) as Hsema.
  assert (total holding (walkers s) = 0); [|lia].
  clear -Hex. induction Hex as [|w ws -> _ IH]; simpl; lia.
Qed.

(** Once [fileSizes] is closed only [main] runs, and nothing is sent. *)
Lemma closed_quiet s ch a s' :
  sync_inv cap s -> closed s = true -> step ReadDirF Join cap c ch s = Next a s' ->
  tid_of ch = TMain /\ is_send a = false /\ is_add a = false /\ is_go a = false
  /\ is_close a = false.
Proof.
  intros Hsync Hcl Hstep.
  assert (closer s = CExit) as Hc by by apply (inv_closed _ _ Hsync).
  assert (n s = 0) as Hn by (apply (inv_waited _ _ Hsync); auto).
  pose proof (all_exited_sync _ Hsync Hn) as Hex.
  assert (dispatching (main s) = false) as Hd.
  { destruct (dispatching (main s)) eqn:Hd; [|done].
    apply (inv_dispatch _ _ Hsync) in Hd. congruence. }
  step_inv Hstep; simpl in *; try done.
  all: rewrite Forall_lookup in Hex; by specialize (Hex _ _ Heqo).
Qed.

Lemma after_close tr s :
  run ReadDirF Join cap c tr s ->
  forall tr1 g tr2, tr = tr1 ++ (g, Close) :: tr2 ->
  Forall (fun e => e.1 = TMain /\ is_send e.2 = false /\ is_add e.2 = false
                   /\ is_go e.2 = false /\ is_close e.2 = false) tr2.
Proof.
  induction 1 as [|tr s ch a s' Hrun IH Hstep]; intros tr1 g tr2 Heq.
  - by destruct tr1.
  - apply snoc_eq_middle in Heq as [(-> & -> & ?)|(tr2' & -> & ->)]; [constructor|].
    apply Forall_app. split; [by eapply IH|]. apply Forall_singleton. simpl.
    destruct (run_sync _ _ Hrun) as (Hsync & Htr & _).
    eapply closed_quiet; [done| |done].
    pose proof (inv_closes _ _ Htr) as Hcl.
    pose proof (occurrences_middle is_close tr1 (g, Close) tr2' eq_refl).
    destruct (closed s); [done|lia].
Qed.

End Sync.

(** ** Conservation *)

(** Opens the fields of [data_inv] and settles those that the step leaves
    alone or changes by arithmetic only. *)
Ltac fields :=
  split; simpl;
  rewrite ?sent_snoc, ?work_snoc, ?flat_map_snoc, ?total_app; simpl;
  simpl in *; rewrite ?app_nil_r in *; use_pcs; simpl;
  try done;
  try (unfold remaining in *; simpl; use_pcs; totals; rewrite ?length_app;
       unfold walker_cost in *; simpl in *; lia).

(** What the other walkers still owe when walker [i] moves on to [w'] with
    the tree [t']. *)
Ltac walker_update wts i Hi w' t' :=
  let rs := fresh "rs" in let re := fresh "re" in
  destruct (flat_map_insert (fun wt : walker * tree => sizes wt.2) wts i _ (w', t') Hi)
    as (rs & Es1 & Es2);
  destruct (flat_map_insert (fun wt : walker * tree => errors wt.2) wts i _ (w', t') Hi)
    as (re & Ee1 & Ee2);
  simpl in Es1, Es2, Ee1, Ee2.

Section Data.

Variable ReadDirF : string -> list FileInfo + string.
Variable Join : string -> string -> string.
Variable cap : caps.
Variable c : config.
Variable T : list tree.
Hypothesis roots_mounted : Forall2 (mounted ReadDirF Join) (roots c) T.

Local Abbreviation data_inv := (data_inv ReadDirF Join T).
Local Abbreviation walker_tree := (walker_tree ReadDirF Join).

Lemma data_inv_init : data_inv [] (init c) [] T.
Proof.
  split; simpl; try done.
  unfold remaining, total_work, work. simpl. lia.
Qed.

Lemma ghost_lookup (wts : list (walker * tree)) i w :
  wts.*1 !! i = Some w -> exists t, wts !! i = Some (w, t).
Proof.
  rewrite list_lookup_fmap. destruct (wts !! i) as [[w' t]|]; simpl; [|done].
  intros [= ->]. eauto.
Qed.

Lemma mounted_Entries dir es :
  mounted ReadDirF Join dir (Entries es)
  <-> ReadDirF dir = inl (map info es) /\ mounted_all ReadDirF Join dir es.
Proof.
  unfold mounted_all. simpl. apply and_iff_compat_l.
  induction es as [|e es IH]; simpl.
  - split; auto.
  - rewrite Forall_cons. rewrite IH. reflexivity.
Qed.

Lemma data_inv_step tr ch s a s' wts mts :
  sync_inv cap s ->
  data_inv tr s wts mts ->
  step ReadDirF Join cap c ch s = Next a s' ->
  exists wts' mts', data_inv (tr ++ [(tid_of ch, a)]) s' wts' mts'.
Proof.
  intros Hsync [Hws Htrees Hmain Hsizes Herrs Hdirs Hwork] Hstep.
  unfold remaining in Hwork.
  step_inv Hstep.
  all: try match goal with
           | H : walkers _ !! ?i = Some ?w |- _ =>
               let t := fresh "t" in let Hi := fresh "Hi" in let Ht := fresh "Ht" in
               rewrite Hws in H; destruct (ghost_lookup _ _ _ H) as [t Hi];
               pose proof (Forall_lookup_1 _ _ _ _ Htrees Hi) as Ht; simpl in Ht
           end.
  all: simpl in Hmain.
  - (* go closer *)
    apply Forall2_nil_inv_l in Hmain as ->.
    assert (closer s = CNone) as Hc by (apply Hsync; by rewrite Heqm).
    rewrite Hc in Hwork.
    exists wts, []. fields.
  - (* main: Add *)
    exists wts, mts. fields.
  - (* main: go walkDir(root) *)
    apply Forall2_cons_inv_l in Hmain as (t & mts' & Hroot & Hrest & ->).
    exists (wts ++ [(WAcquire root, t)]), mts'. fields.
    + by rewrite fmap_app, Hws.
    + apply Forall_app. split; [done|]. by apply Forall_singleton.
    + rewrite <- Hsizes. simpl. solve_Permutation.
    + rewrite <- Herrs. unfold error_lines. simpl. rewrite !map_app. solve_Permutation.
  - (* main: channel closed *)
    exists wts, mts. fields.
  - (* main: receive *)
    exists wts, mts. fields.
  - (* main: printDiskUsage *)
    exists wts, mts. fields.
  - (* tick *)
    exists wts, mts. fields.
  - (* closer: Wait returns *)
    exists wts, mts. fields.
  - (* closer: close *)
    exists wts, mts. fields.
  - (* walker: acquire *)
    walker_update wts i Hi (WRead dir) t.
    exists (<[i:=(WRead dir, t)]> wts), mts. fields.
    + by rewrite list_fmap_insert, Hws.
    + by apply Forall_insert.
    + by rewrite Es2, <- Hsizes, Es1.
    + by rewrite Ee2, <- Herrs, Ee1.
  - (* walker: ReadDir succeeds *)
    destruct t as [err|es]; [simpl in Ht; congruence|].
    apply mounted_Entries in Ht as [Hr Hall].
    assert (l = map info es) as -> by congruence.
    walker_update wts i Hi (WRelease dir (map info es)) (Entries es).
    exists (<[i:=(WRelease dir (map info es), Entries es)]> wts), mts. fields.
    + by rewrite list_fmap_insert, Hws.
    + apply Forall_insert; [done|]. simpl. eauto.
    + by rewrite Es2, <- Hsizes, Es1.
    + by rewrite Ee2, <- Herrs, Ee1.
  - (* walker: ReadDir fails *)
    destruct t as [err|es]; [|apply mounted_Entries in Ht as [Hr Hall]; congruence].
    simpl in Ht. assert (s0 = err) as -> by congruence.
    walker_update wts i Hi (WReport dir err) (Failed err).
    exists (<[i:=(WReport dir err, Failed err)]> wts), mts. fields.
    + by rewrite list_fmap_insert, Hws.
    + by apply Forall_insert.
    + by rewrite Es2, <- Hsizes, Es1.
    + by rewrite Ee2, <- Herrs, Ee1.
  - (* walker: report the error *)
    subst t.
    walker_update wts i Hi (WRelease dir []) (Entries []).
    exists (<[i:=(WRelease dir [], Entries [])]> wts), mts. fields.
    + by rewrite list_fmap_insert, Hws.
    + apply Forall_insert; [done|]. simpl. exists [].
      split; [done|]. split; [done|constructor].
    + by rewrite Es2, <- Hsizes, Es1.
    + rewrite Ee2, <- Herrs, Ee1. simpl. solve_Permutation.
  - (* walker: release *)
    walker_update wts i Hi (WRange dir entries) t.
    exists (<[i:=(WRange dir entries, t)]> wts), mts. fields.
    + by rewrite list_fmap_insert, Hws.
    + by apply Forall_insert.
    + by rewrite Es2, <- Hsizes, Es1.
    + by rewrite Ee2, <- Herrs, Ee1.
  - (* walker: Done *)
    destruct Ht as (es & -> & Hes & Hall).
    symmetry in Hes. apply map_eq_nil in Hes as ->.
    walker_update wts i Hi WExit (Entries []).
    exists (<[i:=(WExit, Entries [])]> wts), mts. fields.
    + by rewrite list_fmap_insert, Hws.
    + by apply Forall_insert.
    + by rewrite Es2, <- Hsizes, Es1.
    + by rewrite Ee2, <- Herrs, Ee1.
  - (* walker: Add for a subdirectory *)
    destruct Ht as (es & -> & Hes & Hall).
    destruct es as [|[name size|name size sub] es]; simplify_eq/=.
    apply Forall_cons in Hall as [Hsub Hall]. simpl in Hsub.
    walker_update wts i Hi (WGo dir (info (Dir name size sub)) (map info es))
      (Entries (Dir name size sub :: es)).
    exists (<[i:=(WGo dir (info (Dir name size sub)) (map info es),
                  Entries (Dir name size sub :: es))]> wts), mts. fields.
    + by rewrite list_fmap_insert, Hws.
    + apply Forall_insert; [done|]. simpl. eauto 10.
    + by rewrite Es2, <- Hsizes, Es1.
    + by rewrite Ee2, <- Herrs, Ee1.
  - (* walker: send a file size *)
    destruct Ht as (es & -> & Hes & Hall).
    destruct es as [|[name size|name size sub] es]; simplify_eq/=.
    apply Forall_cons in Hall as [_ Hall].
    walker_update wts i Hi (WRange dir (map info es)) (Entries es).
    exists (<[i:=(WRange dir (map info es), Entries es)]> wts), mts. fields.
    + by rewrite list_fmap_insert, Hws.
    + apply Forall_insert; [done|]. simpl. eauto.
    + rewrite Es2, <- Hsizes, Es1. solve_Permutation.
    + by rewrite Ee2, <- Herrs, Ee1.
  - (* walker: go walkDir(subdir) *)
    destruct Ht as (name & size & sub & es & -> & -> & -> & Hsub & Hall).
    walker_update wts i Hi (WRange dir (map info es)) (Entries es).
    exists (<[i:=(WRange dir (map info es), Entries es)]> wts
            ++ [(WAcquire (Join dir name), sub)]), mts. fields.
    + by rewrite fmap_app, list_fmap_insert, Hws.
    + apply Forall_app. split; [|by apply Forall_singleton].
      apply Forall_insert; [done|]. simpl. eauto.
    + rewrite Es2, <- Hsizes, Es1. solve_Permutation.
    + rewrite map_app, Ee2, <- Herrs, Ee1, !map_app. solve_Permutation.
Qed.

(** Everything a reachable state satisfies. *)
Lemma run_inv tr s :
  run ReadDirF Join cap c tr s ->
  sync_inv cap s /\ trace_inv tr s /\ exists wts mts, data_inv tr s wts mts.
Proof.
  induction 1 as [|tr s ch a s' Hrun (Hsync & Htr & wts & mts & Hdata) Hstep].
  - split; [apply sync_inv_init|]. split; [apply trace_inv_init|].
    exists [], T. apply data_inv_init.
  - split; [by eapply sync_inv_step|]. split; [by eapply trace_inv_step|].
    by eapply data_inv_step.
Qed.

Lemma cost_ge_4 t : (4 <= cost t)%nat.
Proof. destruct t; simpl; lia. Qed.

Lemma walker_cost_nonneg wt : 0 <= walker_cost wt.
Proof.
  destruct wt as [w t]. unfold walker_cost. simpl.
  pose proof (cost_ge_4 t). destruct w; simpl; lia.
Qed.

Lemma remaining_nonneg s wts mts : 0 <= remaining s wts mts.
Proof.
  unfold remaining.
  pose proof (total_nonneg walker_cost wts walker_cost_nonneg).
  assert (0 <= main_cost (main s) mts).
  { pose proof (total_nonneg (fun t => 2 + Z.of_nat (cost t)) mts) as Hm.
    destruct (main s); simpl; try lia; assert (0 <= total (fun t => 2 + Z.of_nat (cost t)) mts)
      by (apply Hm; intros; lia); lia. }
  assert (0 <= closer_cost (closer s)) by (destruct (closer s); simpl; lia).
  lia.
Qed.

(** A run takes at most [total_work T] steps, progress reports apart. *)
Lemma run_bounded tr s :
  run ReadDirF Join cap c tr s -> 0 <= work tr <= total_work T.
Proof.
  intros Hrun. destruct (run_inv _ _ Hrun) as (_ & _ & wts & mts & Hdata).
  pose proof (remaining_nonneg s wts mts). pose proof (inv_work _ _ _ _ _ _ _ Hdata).
  unfold work in *. lia.
Qed.

Lemma exited_owe_nothing (wts : list (walker * tree)) :
  Forall (fun wt => walker_tree wt.1 wt.2) wts ->
  Forall (fun w => w = WExit) (wts.*1) ->
  flat_map (fun wt => sizes wt.2) wts = [] /\
  flat_map (fun wt => errors wt.2) wts = [] /\
  total (fun wt => Z.of_nat (dirs wt.2)) wts = Z.of_nat (length wts).
Proof.
  induction 1 as [|[w t] wts Hwt _ IH]; simpl; [done|].
  rewrite Forall_cons. intros [-> Hall]. simpl in Hwt. subst t.
  destruct (IH Hall) as (-> & -> & ->). simpl. repeat split; lia.
Qed.

(** Every run can be completed: some schedule leads on to the return of
    [main]. *)
Lemma completes tr s :
  (1 <= sema_cap cap)%nat -> (1 <= fileSizes_cap cap)%nat ->
  run ReadDirF Join cap c tr s ->
  exists sched tr' s',
    exec ReadDirF Join cap c sched s = Some (tr', s') /\ exited (main s') = true.
Proof.
  intros Hsc Hfc Hrun.
  remember (Z.to_nat (total_work T - work tr)) as k eqn:Hk.
  revert tr s Hrun Hk. induction k as [k IH] using lt_wf_ind. intros tr s Hrun Hk.
  destruct (exited (main s)) eqn:Hex.
  { exists [], [], s. done. }
  destruct (run_inv _ _ Hrun) as (Hsync & _).
  destruct (progress ReadDirF Join cap c s Hsc Hfc Hsync Hex) as (ch & a & s1 & Hnt & Hstep).
  assert (run ReadDirF Join cap c (tr ++ [(tid_of ch, a)]) s1) as Hrun1 by by econstructor.
  pose proof (run_bounded _ _ Hrun1) as Hb. rewrite work_snoc in Hb. simpl in Hb.
  rewrite Hnt in Hb.
  destruct (IH (Z.to_nat (total_work T - work (tr ++ [(tid_of ch, a)]))))
    with (tr := tr ++ [(tid_of ch, a)]) (s := s1) as (sched & tr' & s' & Hexec & Hdone);
    [|done|done|].
  { rewrite work_snoc. simpl. rewrite Hnt. lia. }
  exists (ch :: sched), ((tid_of ch, a) :: tr'), s'. simpl. by rewrite Hstep, Hexec.
Qed.

(** The state of a finished run. *)
Lemma finished_run tr s :
  run ReadDirF Join cap c tr s -> finished (main s) = true ->
  sent tr ≡ₚ flat_map sizes T /\ received tr = sent tr /\
  stderr s ≡ₚ error_lines T /\
  Z.of_nat (length (walkers s)) = total (fun t => Z.of_nat (dirs t)) T /\
  Forall (fun w => w = WExit) (walkers s) /\ n s = 0 /\ sema s = 0%nat.
Proof.
  intros Hrun Hfin. destruct (run_inv _ _ Hrun) as (Hsync & Htr & wts & mts & Hdata).
  destruct (inv_finished _ _ Hsync Hfin) as [Hcl Hbuf].
  assert (n s = 0) as Hn.
  { apply (inv_waited _ _ Hsync). right. by apply (inv_closed _ _ Hsync). }
  pose proof (all_exited_sync _ _ Hsync Hn) as Hex.
  destruct Hdata as [Hws Htrees Hmain Hsizes Herrs Hdirs _].
  assert (mts = []) as -> by (destruct (main s); simpl in *; done).
  rewrite Hws in Hex. destruct (exited_owe_nothing _ Htrees Hex) as (Hs0 & He0 & Hd0).
  rewrite Hs0 in Hsizes. rewrite He0 in Herrs. simpl in *.
  rewrite !app_nil_r in *. rewrite Hd0 in Hdirs.
  pose proof (inv_fifo _ _ Htr) as Hfifo. rewrite Hbuf, app_nil_r in Hfifo.
  repeat split; try done.
  - rewrite Hws, length_fmap. lia.
  - by rewrite Hws.
  - pose proof (inv_sema _ _ Hsync) as Hsema.
    assert (total holding (walkers s) = 0); [|lia].
    rewrite Hws. clear -Hex. induction Hex as [|w ws -> _ IH]; simpl; lia.
Qed.

(** Final totals: the aggregator holds the number of files and the sum of
    their sizes, both reduced to int64. *)
Lemma final_totals tr s :
  run ReadDirF Join cap c tr s -> finished (main s) = true ->
  nfiles s = wrap64 (nfiles_of T) /\ nbytes s = wrap64 (nbytes_of T).
Proof.
  intros Hrun Hfin.
  destruct (finished_run _ _ Hrun Hfin) as (Hsent & Hrecv & _).
  destruct (run_inv _ _ Hrun) as (_ & Htr & _).
  rewrite (inv_nfiles _ _ Htr), (inv_nbytes _ _ Htr), Hrecv.
  unfold nfiles_of, nbytes_of. split.
  - by rewrite Hsent.
  - f_equal. by apply sumZ_perm.
Qed.

End Data.

(** ** Sample runs *)

Example demo_mounted : mounted demo_ReadDir sample_Join "." demo_tree.
Proof. simpl. repeat split. Qed.

Lemma scheduled_run ReadDirF Join cap c fuel order :
  is_Some (scheduled ReadDirF Join cap c fuel order) ->
  run ReadDirF Join cap c
      (outcome_of c (scheduled ReadDirF Join cap c fuel order)).1
      (outcome_of c (scheduled ReadDirF Join cap c fuel order)).2.
Proof.
  intros [[tr s] Hr]. rewrite Hr. simpl. by eapply exec_init_run.
Qed.

Lemma sample_is_run ReadDirF c :
  is_Some (sample_run ReadDirF sample_Join godu_caps c 100 102) ->
  run ReadDirF sample_Join godu_caps c (sample_trace ReadDirF c) (sample_final ReadDirF c).
Proof. apply scheduled_run. Qed.

Lemma demo_is_run : run demo_ReadDir sample_Join godu_caps demo_cfg demo_trace demo_final.
Proof. apply sample_is_run. vm_compute. eauto. Qed.

Lemma plain_is_run :
  run plain_ReadDir sample_Join godu_caps demo_cfg plain_trace plain_final.
Proof. apply sample_is_run. vm_compute. eauto. Qed.

Lemma reversed_is_run :
  run plain_ReadDir sample_Join godu_caps demo_cfg reversed_trace reversed_final.
Proof. apply scheduled_run. vm_compute. eauto. Qed.

Lemma huge_is_run :
  run huge_ReadDir sample_Join godu_caps demo_cfg huge_trace huge_final.
Proof. apply sample_is_run. vm_compute. eauto. Qed.

Lemma ab_is_run :
  run huge_ReadDir sample_Join godu_caps ab_cfg (sample_trace huge_ReadDir ab_cfg) ab_final.
Proof. apply sample_is_run. vm_compute. eauto. Qed.

Lemma missing_is_run :
  run demo_ReadDir sample_Join godu_caps missing_cfg missing_trace missing_final.
Proof. apply sample_is_run. vm_compute. eauto. Qed.

Example demo_run :
  main demo_final = MExit /\ nfiles demo_final = 3 /\ nbytes demo_final = 35
  /\ stderr demo_final = [error_line "open locked: permission denied"].
Proof. vm_compute. done. Qed.

(** Under [-v] the progress lines come before the final report and leave the
    totals alone. *)
Example verbose_run :
  main verbose_final = MExit /\ nfiles verbose_final = 4 /\ nbytes verbose_final = 42
  /\ stdout verbose_final
     = [("Files: 4, Size: 0.0GB, Goroutines: 2, Cur FPS: 4" ++ nl)%string;
        ("Files: 4, Size: 0.0GB, Goroutines: 2, Cur FPS: 4" ++ nl)%string;
        (nl ++ "Done!" ++ nl
         ++ "Files: 4, Size: 0.0GB, Avg FPS: 2, Elapsed: 2 seconds" ++ nl)%string].
Proof. vm_compute. done. Qed.

(** With a gate of capacity zero nothing can run once the root is
    dispatched: the walker waits for a token that cannot exist. *)
Example zero_capacity_deadlock :
  main stuck_state = MSelect /\ walkers stuck_state = [WAcquire "."]
  /\ forall ch, step plain_ReadDir sample_Join no_gate demo_cfg ch stuck_state = Blocked.
Proof.
  split; [reflexivity|]. split; [reflexivity|].
  intros [now|now g| |[|i]]; reflexivity.
Qed.

(** ** The reports *)

Lemma count_nl_app a b : count_nl (a ++ b) = (count_nl a + count_nl b)%nat.
Proof. induction a as [|x a IH]; simpl; [done|]. rewrite IH. lia. Qed.

Lemma count_nl_uint d : count_nl (NilEmpty.string_of_uint d) = 0%nat.
Proof. induction d; simpl; done. Qed.

Lemma count_nl_fmt_d z : count_nl (fmt_d z) = 0%nat.
Proof.
  unfold fmt_d, NilZero.string_of_int, NilZero.string_of_uint.
  destruct (Z.to_int z) as [d|d]; destruct d; simpl; rewrite ?count_nl_uint; done.
Qed.

Lemma count_nl_fmt_f1 f : count_nl (fmt_f1 f) = 0%nat.
Proof.
  unfold fmt_f1. destruct (Prim2SF f) as [[]|[]| |[] m e]; simpl; try done.
  all: rewrite ?count_nl_app, !count_nl_fmt_d; simpl; by rewrite count_nl_fmt_d.
Qed.

Lemma count_nl_totals_line nfiles nbytes elapsed :
  count_nl (totals_line nfiles nbytes elapsed) = 0%nat.
Proof.
  unfold totals_line.
  repeat (rewrite count_nl_app || rewrite count_nl_fmt_d || rewrite count_nl_fmt_f1).
  done.
Qed.

Lemma append_assoc (a b d : string) : ((a ++ b) ++ d = a ++ b ++ d)%string.
Proof. induction a as [|x a IH]; simpl; congruence. Qed.

Lemma printDiskUsage_text nfiles nbytes start stop :
  printDiskUsage nfiles nbytes start stop =
  Some (nl ++ "Done!" ++ nl
        ++ totals_line nfiles nbytes (clamp_elapsed (int64_sub stop start)) ++ nl)%string.
Proof.
  unfold printDiskUsage. rewrite rate_defined. unfold totals_line.
  by rewrite !append_assoc.
Qed.

Lemma printProgress_text nfiles nbytes start now goroutines :
  printProgress nfiles nbytes start now goroutines =
  Some (progress_line nfiles nbytes (clamp_elapsed (int64_sub now start)) goroutines
        ++ nl)%string.
Proof.
  unfold printProgress. rewrite rate_defined. unfold progress_line.
  by rewrite !append_assoc.
Qed.

Example printDiskUsage_sample :
  printDiskUsage 7 1550000000 100 102 =
  Some (nl ++ "Done!" ++ nl
        ++ "Files: 7, Size: 1.6GB, Avg FPS: 3, Elapsed: 2 seconds" ++ nl)%string.
Proof. vm_compute. reflexivity. Qed.

(** 1.25 is a binary64 number and is rounded to even; 1.35 is not and its
    nearest binary64 number is above the half. *)
Example fmt_f1_samples :
  fmt_f1 (gigabytes 1250000000) = "1.2"%string
  /\ fmt_f1 (gigabytes 1350000000) = "1.4"%string
  /\ fmt_f1 (gigabytes (- 2 ^ 63)) = "-9223372036.9"%string
  /\ fmt_f1 (gigabytes (-1)) = "-0.0"%string
  /\ fmt_f1 (gigabytes 0) = "0.0"%string.
Proof. vm_compute. repeat split; reflexivity. Qed.

(** A clock that stands still, and one that runs backwards. *)
Example printProgress_samples :
  printProgress 9 0 100 100 3 =
    Some ("Files: 9, Size: 0.0GB, Goroutines: 3, Cur FPS: 9" ++ nl)%string
  /\ printProgress 9 0 100 98 3 =
    Some ("Files: 9, Size: 0.0GB, Goroutines: 3, Cur FPS: -4" ++ nl)%string.
Proof. vm_compute. split; reflexivity. Qed.

(** C9: in both reporters a zero elapsed interval is replaced by one second
    before the division, so the rate is always defined (no division by zero,
    for every input) and is the truncated quotient of the file count by the
    clamped interval, in int64. *)
Theorem rate_never_divides_by_zero nfiles nbytes start now goroutines :
  let elapsed := clamp_elapsed (int64_sub now start) in
  let fps := wrap64 (Z.quot nfiles elapsed) in
  elapsed <> 0
  /\ (int64_sub now start = 0 -> elapsed = 1)
  /\ (int64_sub now start <> 0 -> elapsed = int64_sub now start)
  /\ int64_div nfiles elapsed = Some fps
  /\ (- 2 ^ 63 <= nfiles < 2 ^ 63 -> elapsed <> -1 -> fps = Z.quot nfiles elapsed)
  /\ printDiskUsage nfiles nbytes start now =
       Some (nl ++ "Done!" ++ nl ++ totals_line nfiles nbytes elapsed ++ nl)%string
  /\ printProgress nfiles nbytes start now goroutines =
       Some (progress_line nfiles nbytes elapsed goroutines ++ nl)%string.
Proof.
  intros elapsed fps. subst elapsed fps.
  split; [apply clamp_elapsed_nonzero|].
  split; [intros ->; done|].
  split; [intros H; unfold clamp_elapsed; apply Z.eqb_neq in H; by rewrite H|].
  split; [apply rate_defined|].
  split; [|split; [apply printDiskUsage_text|apply printProgress_text]].
  intros Hn He. apply wrap64_small.
  pose proof (clamp_elapsed_nonzero (int64_sub now start)) as H0.
  set (e := clamp_elapsed (int64_sub now start)) in *.
  destruct (Z.eq_dec e 1) as [->|H1]; [rewrite Z.quot_1_r; lia|].
  destruct (Z.eq_dec nfiles 0) as [->|Hnz]; [rewrite Z.quot_0_l; lia|].
  assert (Z.abs (Z.quot nfiles e) < Z.abs nfiles); [|lia].
  rewrite <- (Z.quot_abs nfiles e) by done. apply Z.quot_lt; lia.
Qed.

Lemma fmt_d_digit d : 0 <= d < 10 -> String.length (fmt_d d) = 1%nat.
Proof.
  intros Hd.
  assert (d = 0 \/ d = 1 \/ d = 2 \/ d = 3 \/ d = 4 \/ d = 5 \/ d = 6 \/ d = 7
          \/ d = 8 \/ d = 9) as Hcases by lia.
  repeat destruct Hcases as [->|Hcases]; try reflexivity. by subst.
Qed.

(** [%.1f] prints a finite number with exactly one digit after the point. *)
Lemma fmt_f1_one_digit f :
  match Prim2SF f with
  | S754_nan | S754_infinity _ => True
  | _ => exists sign ip d,
           String.length d = 1%nat /\ fmt_f1 f = (sign ++ ip ++ "." ++ d)%string
  end.
Proof.
  unfold fmt_f1. destruct (Prim2SF f) as [sg|sg| |sg m e]; try done.
  - exists (if sg then "-" else "")%string, "0"%string, "0"%string. by destruct sg.
  - eexists _, _, _. split; [|reflexivity]. apply fmt_d_digit. apply Z.mod_pos_bound. lia.
Qed.

Section Report.

Variable ReadDirF : string -> list FileInfo + string.
Variable Join : string -> string -> string.
Variable cap : caps.
Variable c : config.

(** The step that ends a run. *)
Lemma exit_step tr s :
  run ReadDirF Join cap c tr s -> exited (main s) = true ->
  exists tr0 s0 stop text,
    tr = tr0 ++ [(TMain, Stdout text)] /\ run ReadDirF Join cap c tr0 s0
    /\ main s0 = MFinal
    /\ printDiskUsage (nfiles s0) (nbytes s0) (start c) stop = Some text
    /\ s = with_main MExit (with_stdout (stdout s0 ++ [text]) s0).
Proof.
  intros Hrun Hex. destruct Hrun as [|tr s ch a s' Hrun Hstep].
  - unfold init, roots in Hex. simpl in Hex. by destruct (args c).
  - step_inv Hstep; simpl in Hex; try congruence.
    exists tr, s, now, s0. done.
Qed.

End Report.

(** C8, as amended: at completion the program writes to standard output
    exactly once, and that text is an empty line, the line [Done!] and one
    totals line (three line terminators in all).  The totals line holds the
    file count, the byte total divided by 1e9 and printed by [%.1f] (one digit
    after the point), the files per second and the elapsed seconds. *)
Theorem final_report ReadDirF Join cap c tr s :
  run ReadDirF Join cap c tr s -> exited (main s) = true ->
  exists stop text,
    let elapsed := clamp_elapsed (int64_sub stop (start c)) in
    last tr = Some (TMain, Stdout text)
    /\ occurrences is_stdout tr = 1%nat
    /\ last (stdout s) = Some text
    /\ text = (nl ++ "Done!" ++ nl ++ totals_line (nfiles s) (nbytes s) elapsed ++ nl)%string
    /\ count_nl text = 3%nat
    /\ count_nl (totals_line (nfiles s) (nbytes s) elapsed) = 0%nat
    /\ match Prim2SF (gigabytes (nbytes s)) with
       | S754_nan | S754_infinity _ => True
       | _ => exists sign ip d,
                String.length d = 1%nat
                /\ fmt_f1 (gigabytes (nbytes s)) = (sign ++ ip ++ "." ++ d)%string
       end.
Proof.
  intros Hrun Hex.
  destruct (exit_step _ _ _ _ _ _ Hrun Hex) as (tr0 & s0 & stop & text & -> & _ & _ & Hp & ->).
  destruct (run_sync _ _ _ _ _ _ Hrun) as (_ & Htr & _).
  pose proof (inv_reported _ _ Htr) as Hrep. simpl in Hrep.
  rewrite printDiskUsage_text in Hp. apply (inj Some) in Hp as <-.
  exists stop. eexists. cbv zeta.
  split; [apply last_snoc|]. split; [done|]. split; [apply last_snoc|].
  split; [done|]. split; [|split; [apply count_nl_totals_line|apply fmt_f1_one_digit]].
  rewrite !count_nl_app, count_nl_totals_line. done.
Qed.

Lemma final_report_witness :
  run demo_ReadDir sample_Join godu_caps demo_cfg demo_trace demo_final
  /\ exited (main demo_final) = true
  /\ exists stop text,
       last demo_trace = Some (TMain, Stdout text)
       /\ occurrences is_stdout demo_trace = 1%nat
       /\ last (stdout demo_final) = Some text
       /\ text = (nl ++ "Done!" ++ nl
                  ++ totals_line (nfiles demo_final) (nbytes demo_final)
                       (clamp_elapsed (int64_sub stop (start demo_cfg))) ++ nl)%string
       /\ count_nl text = 3%nat
       /\ count_nl (totals_line (nfiles demo_final) (nbytes demo_final)
                      (clamp_elapsed (int64_sub stop (start demo_cfg)))) = 0%nat
       /\ match Prim2SF (gigabytes (nbytes demo_final)) with
          | S754_nan | S754_infinity _ => True
          | _ => exists sign ip d,
                   String.length d = 1%nat
                   /\ fmt_f1 (gigabytes (nbytes demo_final)) = (sign ++ ip ++ "." ++ d)%string
          end.
Proof.
  split; [apply demo_is_run|]. split; [vm_compute; reflexivity|].
  apply (final_report demo_ReadDir sample_Join godu_caps demo_cfg demo_trace demo_final).
  - apply demo_is_run.
  - vm_compute. reflexivity.
Defined.

(** The final output of a run is three lines, not one. *)
Lemma final_report_three_lines :
  run demo_ReadDir sample_Join godu_caps demo_cfg demo_trace demo_final
  /\ exited (main demo_final) = true
  /\ stdout demo_final
     = [(nl ++ "Done!" ++ nl
         ++ "Files: 3, Size: 0.0GB, Avg FPS: 1, Elapsed: 2 seconds" ++ nl)%string]
  /\ count_nl (String.concat "" (stdout demo_final)) = 3%nat
  /\ count_nl (String.concat "" (stdout demo_final)) <> 1%nat.
Proof. split; [apply demo_is_run|]. vm_compute. done. Qed.

(** ** Totals *)

Lemma nfiles_of_single t : nfiles_of [t] = Z.of_nat (length (sizes t)).
Proof. unfold nfiles_of. simpl. by rewrite app_nil_r. Qed.

Lemma nbytes_of_single t : nbytes_of [t] = sumZ (sizes t).
Proof. unfold nbytes_of. simpl. by rewrite app_nil_r. Qed.

(** C1, as amended: for a tree without read failures at the single root, a
    run takes a bounded number of steps, never deadlocks, can always be
    completed, and ends with the file count and the sum of the file sizes
    reduced to int64 by wrap-around, hence with the exact count and sum
    whenever these fit in an int64; for every capacity of at least one of the
    gate and of the channel, and for every interleaving. *)
Theorem walk_totals ReadDirF Join cap c root t tr s :
  (1 <= sema_cap cap)%nat -> (1 <= fileSizes_cap cap)%nat ->
  roots c = [root] -> mounted ReadDirF Join root t -> readable t ->
  run ReadDirF Join cap c tr s ->
  0 <= work tr <= total_work [t]
  /\ (exited (main s) = false ->
      exists ch a s', is_tick a = false /\ step ReadDirF Join cap c ch s = Next a s')
  /\ (exists sched tr' s',
        exec ReadDirF Join cap c sched s = Some (tr', s') /\ exited (main s') = true)
  /\ (exited (main s) = true ->
      stderr s = []
      /\ nfiles s = wrap64 (Z.of_nat (length (sizes t)))
      /\ nbytes s = wrap64 (sumZ (sizes t))
      /\ (Z.of_nat (length (sizes t)) < 2 ^ 63 -> nfiles s = Z.of_nat (length (sizes t)))
      /\ (- 2 ^ 63 <= sumZ (sizes t) < 2 ^ 63 -> nbytes s = sumZ (sizes t))).
Proof.
  intros Hsc Hfc Hroots Hm Hread Hrun.
  assert (Forall2 (mounted ReadDirF Join) (roots c) [t]) as HT.
  { rewrite Hroots. by repeat constructor. }
  split; [by eapply run_bounded|].
  split; [intros Hex; eapply progress; try done; by eapply run_sync|].
  split; [by eapply completes|].
  intros Hex. apply exited_finished in Hex.
  destruct (final_totals _ _ _ _ _ HT _ _ Hrun Hex) as [Hf Hb].
  destruct (finished_run _ _ _ _ _ HT _ _ Hrun Hex) as (_ & _ & Herr & _).
  rewrite nfiles_of_single in Hf. rewrite nbytes_of_single in Hb.
  split.
  { unfold error_lines in Herr. simpl in Herr. rewrite app_nil_r in Herr.
    unfold readable in Hread. rewrite Hread in Herr. by apply Permutation_nil_r in Herr. }
  split; [done|]. split; [done|].
  split; intros Hrange; [rewrite Hf|rewrite Hb]; apply wrap64_small; lia.
Qed.

Lemma walk_totals_witness :
  (1 <= sema_cap godu_caps)%nat /\ (1 <= fileSizes_cap godu_caps)%nat
  /\ roots demo_cfg = ["."%string]
  /\ mounted plain_ReadDir sample_Join "." plain_tree
  /\ readable plain_tree
  /\ run plain_ReadDir sample_Join godu_caps demo_cfg plain_trace plain_final
  /\ exited (main plain_final) = true
  /\ nfiles plain_final = Z.of_nat (length (sizes plain_tree))
  /\ nbytes plain_final = sumZ (sizes plain_tree).
Proof.
  assert (mounted plain_ReadDir sample_Join "." plain_tree) as Hm by (simpl; repeat split).
  assert (1 <= sema_cap godu_caps)%nat as Hsc by (simpl; lia).
  assert (1 <= fileSizes_cap godu_caps)%nat as Hfc by (simpl; lia).
  assert (exited (main plain_final) = true) as Hex by (vm_compute; reflexivity).
  split; [exact Hsc|]. split; [exact Hfc|]. split; [reflexivity|].
  split; [exact Hm|]. split; [reflexivity|]. split; [apply plain_is_run|].
  split; [exact Hex|].
  pose proof (walk_totals plain_ReadDir sample_Join godu_caps demo_cfg "." plain_tree
                plain_trace plain_final Hsc Hfc eq_refl Hm eq_refl plain_is_run)
    as (_ & _ & _ & Hend).
  destruct (Hend Hex) as (_ & _ & _ & Hf & Hb).
  split; [apply Hf; reflexivity|apply Hb; vm_compute; split; [discriminate|reflexivity]].
Defined.

(** Two sparse files of 2^62 bytes: the byte total wraps to -2^63, it is not
    the sum 2^63 of the sizes. *)
Lemma walk_totals_overflow :
  roots demo_cfg = ["."%string]
  /\ mounted huge_ReadDir sample_Join "." huge_tree
  /\ readable huge_tree
  /\ run huge_ReadDir sample_Join godu_caps demo_cfg huge_trace huge_final
  /\ exited (main huge_final) = true
  /\ nfiles huge_final = 2
  /\ sumZ (sizes huge_tree) = 2 ^ 63
  /\ nbytes huge_final = - 2 ^ 63
  /\ nbytes huge_final <> sumZ (sizes huge_tree).
Proof.
  split; [reflexivity|]. split; [simpl; repeat split|]. split; [reflexivity|].
  split; [apply huge_is_run|]. vm_compute. repeat split; done.
Qed.

(** C7: two complete runs of the same command line over the same file
    system end with the same file count and the same byte total, whatever
    the interleavings. *)
Theorem idempotent ReadDirF Join cap c T tr1 s1 tr2 s2 :
  Forall2 (mounted ReadDirF Join) (roots c) T ->
  run ReadDirF Join cap c tr1 s1 -> exited (main s1) = true ->
  run ReadDirF Join cap c tr2 s2 -> exited (main s2) = true ->
  nfiles s1 = nfiles s2 /\ nbytes s1 = nbytes s2.
Proof.
  intros HT Hrun1 Hex1 Hrun2 Hex2.
  apply exited_finished in Hex1, Hex2.
  destruct (final_totals _ _ _ _ _ HT _ _ Hrun1 Hex1) as [-> ->].
  destruct (final_totals _ _ _ _ _ HT _ _ Hrun2 Hex2) as [-> ->].
  done.
Qed.

Lemma idempotent_witness :
  Forall2 (mounted plain_ReadDir sample_Join) (roots demo_cfg) [plain_tree]
  /\ run plain_ReadDir sample_Join godu_caps demo_cfg plain_trace plain_final
  /\ exited (main plain_final) = true
  /\ run plain_ReadDir sample_Join godu_caps demo_cfg reversed_trace reversed_final
  /\ exited (main reversed_final) = true
  /\ plain_trace <> reversed_trace
  /\ nfiles plain_final = nfiles reversed_final
  /\ nbytes plain_final = nbytes reversed_final.
Proof.
  assert (Forall2 (mounted plain_ReadDir sample_Join) (roots demo_cfg) [plain_tree]) as HT
    by (repeat constructor).
  assert (exited (main plain_final) = true) as Hex1 by (vm_compute; reflexivity).
  assert (exited (main reversed_final) = true) as Hex2 by (vm_compute; reflexivity).
  split; [exact HT|]. split; [apply plain_is_run|]. split; [exact Hex1|].
  split; [apply reversed_is_run|]. split; [exact Hex2|].
  split; [vm_compute; discriminate|].
  exact (idempotent plain_ReadDir sample_Join godu_caps demo_cfg [plain_tree]
           plain_trace plain_final reversed_trace reversed_final
           HT plain_is_run Hex1 reversed_is_run Hex2).
Defined.

Lemma wrap64_idemp z : wrap64 (wrap64 z) = wrap64 z.
Proof. apply wrap64_small, wrap64_range. Qed.

Lemma nfiles_of_cons t ts : nfiles_of (t :: ts) = nfiles_of [t] + nfiles_of ts.
Proof. unfold nfiles_of. simpl. rewrite app_nil_r, length_app. lia. Qed.

Lemma nbytes_of_cons t ts : nbytes_of (t :: ts) = nbytes_of [t] + nbytes_of ts.
Proof. unfold nbytes_of. simpl. by rewrite app_nil_r, sumZ_app. Qed.

Lemma walked_alone_sum ReadDirF Join rs T finals :
  Forall2 (mounted ReadDirF Join) rs T ->
  Forall2 (walked_alone ReadDirF Join) rs finals ->
  wrap64 (sumZ finals.*1) = wrap64 (nfiles_of T)
  /\ wrap64 (sumZ finals.*2) = wrap64 (nbytes_of T).
Proof.
  intros HT. revert finals.
  induction HT as [|root t rs T Hm HT IH]; intros finals Hf.
  - apply Forall2_nil_inv_l in Hf as ->. done.
  - apply Forall2_cons_inv_l in Hf as (f & finals' & Hone & Hrest & ->).
    destruct Hone as (cap & c & tr & s & Hroots & Hrun & Hex & ->).
    assert (Forall2 (mounted ReadDirF Join) (roots c) [t]) as HT1.
    { rewrite Hroots. by repeat constructor. }
    apply exited_finished in Hex.
    destruct (final_totals _ _ _ _ _ HT1 _ _ Hrun Hex) as [Hn Hb].
    destruct (IH _ Hrest) as [IHn IHb].
    rewrite nfiles_of_cons, nbytes_of_cons, !fmap_cons. cbn [fst snd sumZ foldr].
    fold (sumZ finals'.*1). fold (sumZ finals'.*2).
    rewrite <- (wrap64_add (nfiles s)), <- (wrap64_add (nbytes s)).
    by rewrite IHn, IHb, Hn, Hb, !wrap64_idemp, !wrap64_add.
Qed.

(** C6, as amended: the totals of a run over several roots are the int64
    sums (addition with wrap-around) of the totals that walking each root on
    its own ends with.  They are the exact sums whenever these fit in an
    int64. *)
Theorem multi_root_totals ReadDirF Join cap c T tr s finals :
  Forall2 (mounted ReadDirF Join) (roots c) T ->
  run ReadDirF Join cap c tr s -> exited (main s) = true ->
  Forall2 (walked_alone ReadDirF Join) (roots c) finals ->
  nfiles s = wrap64 (sumZ finals.*1) /\ nbytes s = wrap64 (sumZ finals.*2)
  /\ (- 2 ^ 63 <= sumZ finals.*1 < 2 ^ 63 -> nfiles s = sumZ finals.*1)
  /\ (- 2 ^ 63 <= sumZ finals.*2 < 2 ^ 63 -> nbytes s = sumZ finals.*2).
Proof.
  intros HT Hrun Hex Hfinals. apply exited_finished in Hex.
  destruct (final_totals _ _ _ _ _ HT _ _ Hrun Hex) as [Hn Hb].
  destruct (walked_alone_sum _ _ _ _ _ HT Hfinals) as [Hsn Hsb].
  rewrite Hn, Hb, <- Hsn, <- Hsb.
  repeat split; try done; intros Hrange; by apply wrap64_small.
Qed.

Lemma multi_root_totals_witness :
  Forall2 (mounted huge_ReadDir sample_Join) (roots ab_cfg) [huge_a; huge_b]
  /\ run huge_ReadDir sample_Join godu_caps ab_cfg (sample_trace huge_ReadDir ab_cfg) ab_final
  /\ exited (main ab_final) = true
  /\ Forall2 (walked_alone huge_ReadDir sample_Join) (roots ab_cfg)
       [(nfiles a_final, nbytes a_final); (nfiles b_final, nbytes b_final)]
  /\ nfiles ab_final = sumZ [(nfiles a_final, nbytes a_final); (nfiles b_final, nbytes b_final)].*1
  /\ nbytes ab_final
     = wrap64 (sumZ [(nfiles a_final, nbytes a_final); (nfiles b_final, nbytes b_final)].*2).
Proof.
  assert (Forall2 (mounted huge_ReadDir sample_Join) (roots ab_cfg) [huge_a; huge_b])
    as HT by (repeat constructor).
  assert (exited (main ab_final) = true) as Hex by (vm_compute; reflexivity).
  assert (Forall2 (walked_alone huge_ReadDir sample_Join) (roots ab_cfg)
            [(nfiles a_final, nbytes a_final); (nfiles b_final, nbytes b_final)]) as Hf.
  { repeat constructor.
    - exists godu_caps, (cmdline ["a"%string]), (sample_trace huge_ReadDir (cmdline ["a"%string])),
        a_final.
      split; [reflexivity|]. split; [apply sample_is_run; vm_compute; eauto|].
      split; [vm_compute|]; reflexivity.
    - exists godu_caps, (cmdline ["b"%string]), (sample_trace huge_ReadDir (cmdline ["b"%string])),
        b_final.
      split; [reflexivity|]. split; [apply sample_is_run; vm_compute; eauto|].
      split; [vm_compute|]; reflexivity. }
  split; [exact HT|]. split; [apply ab_is_run|]. split; [exact Hex|]. split; [exact Hf|].
  pose proof (multi_root_totals huge_ReadDir sample_Join godu_caps ab_cfg [huge_a; huge_b]
                _ ab_final _ HT ab_is_run Hex Hf) as (_ & Hb & Hn & _).
  split; [|exact Hb]. apply Hn. vm_compute. split; [discriminate|reflexivity].
Defined.

(** Two roots holding 2^62 bytes each: walked on their own they end with
    2^62 bytes each, which add up to 2^63; walked together the program ends
    with -2^63. *)
Lemma multi_root_overflow :
  Forall2 (mounted huge_ReadDir sample_Join) (roots ab_cfg) [huge_a; huge_b]
  /\ run huge_ReadDir sample_Join godu_caps ab_cfg (sample_trace huge_ReadDir ab_cfg) ab_final
  /\ exited (main ab_final) = true
  /\ run huge_ReadDir sample_Join godu_caps (cmdline ["a"%string])
       (sample_trace huge_ReadDir (cmdline ["a"%string])) a_final
  /\ exited (main a_final) = true
  /\ run huge_ReadDir sample_Join godu_caps (cmdline ["b"%string])
       (sample_trace huge_ReadDir (cmdline ["b"%string])) b_final
  /\ exited (main b_final) = true
  /\ nbytes a_final + nbytes b_final = 2 ^ 63
  /\ nbytes ab_final = - 2 ^ 63
  /\ nbytes ab_final <> nbytes a_final + nbytes b_final.
Proof.
  split; [repeat constructor|]. split; [apply ab_is_run|].
  split; [vm_compute; reflexivity|].
  split; [apply sample_is_run; vm_compute; eauto|]. split; [vm_compute; reflexivity|].
  split; [apply sample_is_run; vm_compute; eauto|]. split; [vm_compute; reflexivity|].
  vm_compute. repeat split; discriminate.
Qed.

(** ** Repeated roots *)

Lemma length_concat_replicate {A} k (l : list A) :
  length (concat (replicate k l)) = (k * length l)%nat.
Proof. induction k as [|k IH]; simpl; [done|]. rewrite length_app, IH. lia. Qed.

Lemma sumZ_concat_replicate k l :
  sumZ (concat (replicate k l)) = Z.of_nat k * sumZ l.
Proof. induction k as [|k IH]; simpl; [done|]. rewrite sumZ_app, IH. lia. Qed.

Lemma occurrences_send tr : occurrences is_send tr = length (sent tr).
Proof.
  induction tr as [|[g a] tr IH] using rev_ind; [done|].
  rewrite occurrences_snoc, sent_snoc, length_app, IH. by destruct a.
Qed.

Lemma tree_ind_entries (P : tree -> Prop) :
  (forall err, P (Failed err)) ->
  (forall es,
     Forall (fun e => match e with File _ _ => True | Dir _ _ sub => P sub end) es ->
     P (Entries es)) ->
  forall t, P t.
Proof.
  intros HF HE. fix IH 1. intros [err|es]; [apply HF|]. apply HE.
  induction es as [|[name size|name size sub] es IHes].
  - apply List.Forall_nil.
  - apply List.Forall_cons; [exact I|exact IHes].
  - apply List.Forall_cons; [apply IH|exact IHes].
Qed.

(** The file system holds one tree at a path. *)
Lemma mounted_unique ReadDirF Join t1 : forall dir t2,
  mounted ReadDirF Join dir t1 -> mounted ReadDirF Join dir t2 -> t1 = t2.
Proof.
  induction t1 as [err|es IH] using tree_ind_entries; intros dir t2 H1 H2.
  - destruct t2 as [err2|es2]; [simpl in *; congruence|].
    apply mounted_Entries in H2 as [H2 _]. simpl in H1. congruence.
  - apply mounted_Entries in H1 as [H1 Ha1].
    destruct t2 as [err2|es2]; [simpl in H2; congruence|].
    apply mounted_Entries in H2 as [H2 Ha2]. f_equal.
    assert (map info es = map info es2) as Hinfo by congruence. clear H1 H2.
    revert es2 Ha2 Hinfo.
    induction es as [|e es IHes]; intros [|e2 es2] Ha2 Hinfo; simplify_eq/=; [done|].
    apply Forall_cons in IH as [He IH]. apply Forall_cons in Ha1 as [Hm1 Ha1].
    apply Forall_cons in Ha2 as [Hm2 Ha2].
    f_equal; [|by apply IHes].
    destruct e as [name size|name size sub], e2 as [name2 size2|name2 size2 sub2];
      simplify_eq/=; [done|].
    f_equal. by eapply He.
Qed.

(** The sizes below the roots: those below [root], once for each of its
    occurrences, and those below the other roots. *)
Lemma roots_split ReadDirF Join root t : forall ds ts,
  Forall2 (mounted ReadDirF Join) ds ts -> mounted ReadDirF Join root t ->
  flat_map sizes ts
  ≡ₚ concat (replicate (count_occ string_dec ds root) (sizes t))
     ++ flat_map sizes (other_trees root ds ts).
Proof.
  induction 1 as [|d t' ds ts Hd Hrest IH]; intros Hm; [done|].
  specialize (IH Hm). unfold other_trees in *. cbn [zip_with flat_map count_occ].
  rewrite filter_cons. destruct (string_dec d root) as [->|Hne].
  - rewrite (mounted_unique _ _ _ _ _ Hd Hm).
    cbn [fst]. rewrite String.eqb_refl. rewrite decide_False by done.
    cbn [replicate concat]. rewrite IH. by rewrite <- app_assoc.
  - apply String.eqb_neq in Hne. cbn [fst]. rewrite Hne, decide_True by done.
    cbn [fmap list_fmap snd flat_map]. rewrite IH. solve_Permutation.
Qed.

(** C10: roots are not deduplicated.  When a path occurs [k] times in the
    root sequence, among any other roots, each file below it is sent [k]
    times on the channel, and the final totals count its subtree [k] times
    besides the subtrees of the other roots: in int64, and exactly when the
    totals fit. *)
Theorem repeated_roots ReadDirF Join cap c T root t tr s :
  Forall2 (mounted ReadDirF Join) (roots c) T -> mounted ReadDirF Join root t ->
  run ReadDirF Join cap c tr s -> exited (main s) = true ->
  let k := count_occ string_dec (roots c) root in
  let rest := other_trees root (roots c) T in
  sent tr ≡ₚ concat (replicate k (sizes t)) ++ flat_map sizes rest
  /\ occurrences is_send tr = (k * length (sizes t) + length (flat_map sizes rest))%nat
  /\ nfiles s = wrap64 (Z.of_nat k * Z.of_nat (length (sizes t)) + nfiles_of rest)
  /\ nbytes s = wrap64 (Z.of_nat k * sumZ (sizes t) + nbytes_of rest)
  /\ (Z.of_nat k * Z.of_nat (length (sizes t)) + nfiles_of rest < 2 ^ 63 ->
      nfiles s = Z.of_nat k * Z.of_nat (length (sizes t)) + nfiles_of rest)
  /\ (- 2 ^ 63 <= Z.of_nat k * sumZ (sizes t) + nbytes_of rest < 2 ^ 63 ->
      nbytes s = Z.of_nat k * sumZ (sizes t) + nbytes_of rest).
Proof.
  intros HT Hm Hrun Hex k rest. apply exited_finished in Hex.
  destruct (final_totals _ _ _ _ _ HT _ _ Hrun Hex) as [Hn Hb].
  destruct (finished_run _ _ _ _ _ HT _ _ Hrun Hex) as (Hsent & _).
  pose proof (roots_split _ _ _ _ _ _ HT Hm) as Hsplit. fold k rest in Hsplit.
  assert (nfiles_of T = Z.of_nat k * Z.of_nat (length (sizes t)) + nfiles_of rest) as Hfiles.
  { unfold nfiles_of. rewrite Hsplit, length_app, length_concat_replicate.
    by rewrite Nat2Z.inj_add, Nat2Z.inj_mul. }
  assert (nbytes_of T = Z.of_nat k * sumZ (sizes t) + nbytes_of rest) as Hbytes.
  { unfold nbytes_of. by rewrite (sumZ_perm _ _ Hsplit), sumZ_app, sumZ_concat_replicate. }
  rewrite Hfiles in Hn. rewrite Hbytes in Hb.
  split; [by rewrite Hsent|].
  split; [by rewrite occurrences_send, Hsent, Hsplit, length_app, length_concat_replicate|].
  split; [done|]. split; [done|]. split.
  - intros Hlt. rewrite Hn. apply wrap64_small. unfold nfiles_of in *.
    assert (0 <= Z.of_nat k * Z.of_nat (length (sizes t)))
      by (apply Z.mul_nonneg_nonneg; lia).
    lia.
  - intros Hin. rewrite Hb. by apply wrap64_small.
Qed.

Lemma mixed_is_run :
  run plain_ReadDir sample_Join godu_caps mixed_cfg mixed_trace mixed_final.
Proof. apply sample_is_run. vm_compute. eauto. Qed.

Lemma repeated_roots_witness :
  Forall2 (mounted plain_ReadDir sample_Join) (roots mixed_cfg)
    [plain_sub; plain_tree; plain_sub]
  /\ mounted plain_ReadDir sample_Join "sub" plain_sub
  /\ run plain_ReadDir sample_Join godu_caps mixed_cfg mixed_trace mixed_final
  /\ exited (main mixed_final) = true
  /\ count_occ string_dec (roots mixed_cfg) "sub"%string = 2%nat
  /\ nfiles mixed_final = 8 /\ nbytes mixed_final = 96.
Proof.
  assert (mounted plain_ReadDir sample_Join "sub" plain_sub) as Hm
    by (simpl; repeat split).
  assert (Forall2 (mounted plain_ReadDir sample_Join) (roots mixed_cfg)
            [plain_sub; plain_tree; plain_sub]) as HT.
  { repeat constructor. }
  assert (exited (main mixed_final) = true) as Hex by (vm_compute; reflexivity).
  split; [exact HT|]. split; [exact Hm|]. split; [apply mixed_is_run|].
  split; [exact Hex|]. split; [reflexivity|].
  pose proof (repeated_roots plain_ReadDir sample_Join godu_caps mixed_cfg
                [plain_sub; plain_tree; plain_sub] "sub" plain_sub
                mixed_trace mixed_final HT Hm mixed_is_run Hex)
    as (_ & _ & _ & _ & Hf & Hb).
  split.
  - apply Hf. vm_compute. reflexivity.
  - apply Hb. vm_compute. split; [discriminate|reflexivity].
Defined.

(** ** Read failures *)

(** [dirents] on a directory whose read fails: the walker reports one line,
    gives its token back and goes on with an empty listing. *)
Lemma dirents_failure ReadDirF Join cap c s i dir err :
  sync_inv cap s -> exited (main s) = false ->
  walkers s !! i = Some (WRead dir) -> ReadDirF dir = inr err ->
  exists s',
    exec ReadDirF Join cap c [StepWalker i; StepWalker i; StepWalker i] s
    = Some ([(TWalker i, ReadDir dir); (TWalker i, Stderr (error_line err));
             (TWalker i, Release)], s')
    /\ walkers s' = <[i := WRange dir []]> (walkers s)
    /\ stderr s' = stderr s ++ [error_line err]
    /\ S (sema s') = sema s
    /\ fileSizes s' = fileSizes s /\ nfiles s' = nfiles s /\ nbytes s' = nbytes s
    /\ n s' = n s /\ main s' = main s.
Proof.
  intros Hsync Hex Hi Herr.
  assert (i < length (walkers s))%nat as Hlt by by eapply lookup_lt_Some.
  assert (exists k, sema s = S k) as [k Hk].
  { pose proof (inv_sema _ _ Hsync) as Hs.
    pose proof (total_lookup_le holding _ _ _ holding_nonneg Hi) as Hh. simpl in Hh.
    destruct (sema s) as [|k]; [lia|eauto]. }
  eexists. split.
  - unfold exec, step. rewrite Hex. unfold step_walker at 1. rewrite Hi, Herr.
    cbn [main with_walkers]. rewrite Hex. unfold step_walker at 1.
    cbn [walkers with_walkers]. rewrite list_lookup_insert_eq by done.
    cbn [main with_walkers with_stderr]. rewrite Hex. unfold step_walker at 1.
    cbn [walkers with_walkers with_stderr sema].
    rewrite list_lookup_insert_eq by (by rewrite length_insert).
    rewrite Hk. reflexivity.
  - cbn. rewrite !list_insert_insert_eq. repeat split; done.
Qed.

Lemma count_nl_error_line err : count_nl (error_line err) = S (count_nl err).
Proof.
  unfold error_line. rewrite !count_nl_app. simpl. lia.
Qed.

(** C3, as amended: a directory whose read fails costs one write on the
    error stream, the text [du: ] followed by the description of the error and
    a line feed, and is treated as empty: the run still never deadlocks and
    can always be completed, and it ends with one such write per failing
    directory and with the totals of the directories that could be read.  The
    write is one line when the description holds no line feed, and one line
    more for each line feed it holds.  When the only root cannot be read, the
    run ends with one write and zero files and bytes. *)
Theorem read_failures ReadDirF Join cap c T tr s :
  (1 <= sema_cap cap)%nat -> (1 <= fileSizes_cap cap)%nat ->
  Forall2 (mounted ReadDirF Join) (roots c) T ->
  run ReadDirF Join cap c tr s ->
  (forall i dir err,
     exited (main s) = false -> walkers s !! i = Some (WRead dir) ->
     ReadDirF dir = inr err ->
     exists s',
       exec ReadDirF Join cap c [StepWalker i; StepWalker i; StepWalker i] s
       = Some ([(TWalker i, ReadDir dir);
                (TWalker i, Stderr ("du: " ++ err ++ nl)%string);
                (TWalker i, Release)], s')
       /\ walkers s' = <[i := WRange dir []]> (walkers s)
       /\ stderr s' = stderr s ++ [("du: " ++ err ++ nl)%string]
       /\ count_nl ("du: " ++ err ++ nl)%string = S (count_nl err)
       /\ S (sema s') = sema s
       /\ fileSizes s' = fileSizes s /\ nfiles s' = nfiles s /\ nbytes s' = nbytes s
       /\ n s' = n s /\ main s' = main s)
  /\ (exited (main s) = false ->
      exists ch a s', is_tick a = false /\ step ReadDirF Join cap c ch s = Next a s')
  /\ (exists sched tr' s',
        exec ReadDirF Join cap c sched s = Some (tr', s') /\ exited (main s') = true)
  /\ (exited (main s) = true ->
      stderr s ≡ₚ map (fun err => ("du: " ++ err ++ nl)%string) (flat_map errors T)
      /\ length (stderr s) = length (flat_map errors T)
      /\ (Forall (fun err => count_nl err = 0%nat) (flat_map errors T) ->
          Forall (fun line => count_nl line = 1%nat) (stderr s))
      /\ nfiles s = wrap64 (nfiles_of T) /\ nbytes s = wrap64 (nbytes_of T))
  /\ (forall root err,
        roots c = [root] -> ReadDirF root = inr err -> exited (main s) = true ->
        stderr s = [("du: " ++ err ++ nl)%string] /\ nfiles s = 0 /\ nbytes s = 0).
Proof.
  intros Hsc Hfc HT Hrun.
  destruct (run_sync _ _ _ _ _ _ Hrun) as (Hsync & _).
  split.
  { intros i dir err Hex Hi Herr.
    destruct (dirents_failure ReadDirF Join cap c s i dir err Hsync Hex Hi Herr)
      as (s' & Hexec & Hw & He & Hrest).
    exists s'. split; [exact Hexec|]. split; [exact Hw|]. split; [exact He|].
    split; [apply count_nl_error_line|exact Hrest]. }
  split; [intros Hex; by eapply progress|].
  split; [by eapply completes|].
  assert (exited (main s) = true ->
          stderr s ≡ₚ error_lines T
          /\ nfiles s = wrap64 (nfiles_of T) /\ nbytes s = wrap64 (nbytes_of T)) as Hend.
  { intros Hex. apply exited_finished in Hex.
    destruct (final_totals _ _ _ _ _ HT _ _ Hrun Hex) as [Hn Hb].
    by destruct (finished_run _ _ _ _ _ HT _ _ Hrun Hex) as (_ & _ & Herr & _). }
  split.
  { intros Hex. destruct (Hend Hex) as (He & Hn & Hb).
    split; [exact He|]. split; [|split; [|by split]].
    - rewrite He. unfold error_lines. by rewrite length_map.
    - intros Hone. rewrite He. unfold error_lines. apply Forall_fmap.
      eapply Forall_impl; [exact Hone|]. intros err H0.
      change (count_nl (error_line err) = 1%nat).
      by rewrite count_nl_error_line, H0. }
  intros root err Hroots Herr Hex. destruct (Hend Hex) as (He & Hn & Hb).
  rewrite Hroots in HT.
  apply Forall2_cons_inv_l in HT as (t & T' & Hm & HT' & ->).
  apply Forall2_nil_inv_l in HT' as ->.
  destruct t as [err'|es]; [|apply mounted_Entries in Hm as [Hm _]; congruence].
  simpl in Hm. assert (err' = err) as -> by congruence.
  unfold error_lines in He. simpl in He. apply Permutation_singleton_r in He.
  by rewrite Hn, Hb.
Qed.

Lemma read_failures_witness :
  (1 <= sema_cap godu_caps)%nat /\ (1 <= fileSizes_cap godu_caps)%nat
  /\ Forall2 (mounted demo_ReadDir sample_Join) (roots missing_cfg)
       [Failed (no_such_dir "missing")]
  /\ run demo_ReadDir sample_Join godu_caps missing_cfg missing_trace missing_final
  /\ exited (main missing_final) = true
  /\ stderr missing_final = [("du: " ++ no_such_dir "missing" ++ nl)%string]
  /\ nfiles missing_final = 0 /\ nbytes missing_final = 0.
Proof.
  assert (1 <= sema_cap godu_caps)%nat as Hsc by (simpl; lia).
  assert (1 <= fileSizes_cap godu_caps)%nat as Hfc by (simpl; lia).
  assert (Forall2 (mounted demo_ReadDir sample_Join) (roots missing_cfg)
            [Failed (no_such_dir "missing")]) as HT by (repeat constructor).
  assert (exited (main missing_final) = true) as Hex by (vm_compute; reflexivity).
  split; [exact Hsc|]. split; [exact Hfc|]. split; [exact HT|].
  split; [apply missing_is_run|]. split; [exact Hex|].
  pose proof (read_failures demo_ReadDir sample_Join godu_caps missing_cfg _
                missing_trace missing_final Hsc Hfc HT missing_is_run)
    as (_ & _ & _ & _ & Hroot).
  exact (Hroot "missing"%string (no_such_dir "missing") eq_refl eq_refl Hex).
Defined.

Lemma lf_is_run : run lf_ReadDir sample_Join godu_caps lf_cfg lf_trace lf_final.
Proof. apply sample_is_run. vm_compute. eauto. Qed.

(** A directory that may not be read and whose name holds a line feed: the
    one failure puts two lines on the error stream, not one. *)
Lemma read_failure_two_lines :
  roots lf_cfg = [lf_name]
  /\ lf_ReadDir lf_name = inr lf_error
  /\ Forall2 (mounted lf_ReadDir sample_Join) (roots lf_cfg) [Failed lf_error]
  /\ run lf_ReadDir sample_Join godu_caps lf_cfg lf_trace lf_final
  /\ exited (main lf_final) = true
  /\ occurrences is_readdir lf_trace = 1%nat
  /\ stderr lf_final = [error_line lf_error]
  /\ count_nl (error_line lf_error) = 2%nat
  /\ ~ Forall (fun line => count_nl line = 1%nat) (stderr lf_final).
Proof.
  split; [reflexivity|]. split; [reflexivity|]. split; [repeat constructor|].
  split; [apply lf_is_run|].
  assert (stderr lf_final = [error_line lf_error]) as He by (vm_compute; reflexivity).
  split; [vm_compute; reflexivity|]. split; [vm_compute; reflexivity|].
  split; [exact He|]. split; [vm_compute; reflexivity|].
  rewrite He. intros H. rewrite Forall_singleton in H. vm_compute in H. discriminate.
Qed.

(** ** The close protocol *)

(** C2: in every run [fileSizes] is closed at most once, and exactly once
    when the run is complete; over finite trees every run can be completed.
    The close is performed by the closer after its
    [Wait] has returned, in a state where the counter is zero, every walker
    has returned and [main] has left its dispatch loop; afterwards only
    [main] runs, so nothing is sent (or registered, or started) any more.
    [Wait] returns only when the counter is zero, every [go] is preceded in
    its goroutine by the [Add] that registers the new task, the counter is the
    number of [Add]s minus the number of [Done]s, and no step panics. *)
Theorem close_protocol ReadDirF Join cap c tr s :
  run ReadDirF Join cap c tr s ->
  (occurrences is_close tr <= 1)%nat
  /\ (finished (main s) = true -> occurrences is_close tr = 1%nat)
  /\ (forall T, (1 <= sema_cap cap)%nat -> (1 <= fileSizes_cap cap)%nat ->
        Forall2 (mounted ReadDirF Join) (roots c) T ->
        exists sched tr' s',
          exec ReadDirF Join cap c sched s = Some (tr', s') /\ exited (main s') = true
          /\ occurrences is_close (tr ++ tr') = 1%nat)
  /\ (forall tr1 g tr2, tr = tr1 ++ (g, Close) :: tr2 ->
        g = TCloser /\ last_of TCloser tr1 = Some WaitReturn
        /\ (exists s1, run ReadDirF Join cap c tr1 s1 /\ n s1 = 0
                       /\ Forall (fun w => w = WExit) (walkers s1)
                       /\ dispatching (main s1) = false)
        /\ Forall (fun e => e.1 = TMain /\ is_send e.2 = false /\ is_add e.2 = false
                            /\ is_go e.2 = false /\ is_close e.2 = false) tr2)
  /\ (forall tr1 g tr2, tr = tr1 ++ (g, WaitReturn) :: tr2 ->
        exists s1, run ReadDirF Join cap c tr1 s1 /\ n s1 = 0)
  /\ (forall tr1 g d tr2, tr = tr1 ++ (g, Go d) :: tr2 -> last_of g tr1 = Some Add)
  /\ n s = Z.of_nat (occurrences is_add tr) - Z.of_nat (occurrences is_done tr)
  /\ n s = total live (walkers s) + total pending_go (walkers s) + main_pending_go (main s)
  /\ (forall ch msg, step ReadDirF Join cap c ch s <> Panic msg).
Proof.
  intros Hrun. destruct (run_sync _ _ _ _ _ _ Hrun) as (Hsync & Htr & Hord).
  pose proof (inv_closes _ _ Htr) as Hcl.
  split; [destruct (closed s); lia|].
  split.
  { intros Hfin. destruct (inv_finished _ _ Hsync Hfin) as [Hc _]. by rewrite Hc in Hcl. }
  split.
  { intros T Hsc Hfc HT.
    destruct (completes _ _ _ _ _ HT _ _ Hsc Hfc Hrun) as (sched & tr' & s' & Hexec & Hex).
    exists sched, tr', s'. split; [done|]. split; [done|].
    pose proof (exec_run _ _ _ _ _ _ _ _ _ Hrun Hexec) as Hrun'.
    destruct (run_sync _ _ _ _ _ _ Hrun') as (Hsync' & Htr' & _).
    pose proof (inv_closes _ _ Htr') as Hcl'. apply exited_finished in Hex.
    destruct (inv_finished _ _ Hsync' Hex) as [Hc _]. by rewrite Hc in Hcl'. }
  split.
  { intros tr1 g tr2 Heq.
    destruct (run_split _ _ _ _ _ _ Hrun _ _ _ Heq) as (s1 & ch & s1' & Hrun1 & Hstep & Hg).
    pose proof (event_order _ _ _ _ _ _ Hrun _ _ _ _ Heq) as Hprev.
    destruct (run_sync _ _ _ _ _ _ Hrun1) as (Hsync1 & _).
    simpl in *. step_inv Hstep.
    split; [done|]. split; [done|].
    split; [|apply (after_close _ _ _ _ _ _ Hrun _ _ _ eq_refl)].
    assert (n s1 = 0) as Hn by (apply (inv_waited _ _ Hsync1); auto).
    exists s1. split; [done|]. split; [done|].
    split; [by eapply all_exited_sync|].
    destruct (dispatching (main s1)) eqn:Hd; [|done].
    apply (inv_dispatch _ _ Hsync1) in Hd. congruence. }
  split.
  { intros tr1 g tr2 Heq.
    destruct (run_split _ _ _ _ _ _ Hrun _ _ _ Heq) as (s1 & ch & s1' & Hrun1 & Hstep & Hg).
    exists s1. split; [done|]. simpl in Hstep. step_inv Hstep. by bools. }
  split.
  { intros tr1 g d tr2 Heq. apply (event_order _ _ _ _ _ _ Hrun _ _ _ _ Heq). }
  split; [apply (inv_counter _ _ Htr)|].
  split; [apply (inv_n _ _ Hsync)|].
  intros ch msg. by apply sync_inv_safe.
Qed.

Lemma close_protocol_witness :
  run plain_ReadDir sample_Join godu_caps demo_cfg plain_trace plain_final
  /\ occurrences is_close plain_trace = 1%nat
  /\ n plain_final = 0.
Proof.
  split; [apply plain_is_run|].
  pose proof (close_protocol plain_ReadDir sample_Join godu_caps demo_cfg
                plain_trace plain_final plain_is_run) as (_ & Hone & _ & _ & _ & _ & Hn & _).
  split; [apply Hone; vm_compute; reflexivity|].
  rewrite Hn. vm_compute. reflexivity.
Defined.

(** ** The admission gate *)

(** C4: the tokens outstanding are exactly those of the walkers that are
    inside [dirents], between their acquire and their release, and never
    exceed the capacity of [sema].  In its goroutine an acquire comes first, a
    read directly after the acquire, an error report directly after a read,
    and a release directly after the read or after the error report; acquires
    outnumber releases by the tokens outstanding.  When the run is complete
    every walker has acquired, read and released exactly once and no token is
    outstanding. *)
Theorem admission_gate ReadDirF Join cap c tr s :
  run ReadDirF Join cap c tr s ->
  (sema s <= sema_cap cap)%nat
  /\ Z.of_nat (sema s) = total holding (walkers s)
  /\ occurrences is_acquire tr = (occurrences is_release tr + sema s)%nat
  /\ (forall tr1 g a tr2, tr = tr1 ++ (g, a) :: tr2 -> program_order a (last_of g tr1))
  /\ (forall tr1 g a tr2, tr = tr1 ++ (g, a) :: tr2 -> is_acquire a = true ->
        exists s1 s1', run ReadDirF Join cap c tr1 s1
                       /\ run ReadDirF Join cap c (tr1 ++ [(g, a)]) s1'
                       /\ (sema s1 < sema_cap cap)%nat /\ sema s1' = S (sema s1))
  /\ (forall tr1 g a tr2, tr = tr1 ++ (g, a) :: tr2 -> is_release a = true ->
        exists s1 s1', run ReadDirF Join cap c tr1 s1
                       /\ run ReadDirF Join cap c (tr1 ++ [(g, a)]) s1'
                       /\ sema s1 = S (sema s1'))
  /\ (finished (main s) = true ->
      sema s = 0%nat
      /\ occurrences is_acquire tr = length (walkers s)
      /\ occurrences is_readdir tr = length (walkers s)
      /\ occurrences is_release tr = length (walkers s)).
Proof.
  intros Hrun. destruct (run_sync _ _ _ _ _ _ Hrun) as (Hsync & Htr & Hord).
  split; [apply (inv_cap _ _ Hsync)|]. split; [apply (inv_sema _ _ Hsync)|].
  split; [apply (inv_tokens _ _ Htr)|].
  split; [apply (event_order _ _ _ _ _ _ Hrun)|].
  split.
  { intros tr1 g a tr2 Heq Ha.
    destruct (run_split _ _ _ _ _ _ Hrun _ _ _ Heq) as (s1 & ch & s1' & Hrun1 & Hstep & Hg).
    simpl in *. subst g. exists s1, s1'. split; [done|]. split; [by econstructor|].
    step_inv Hstep; simpl in *; try done. bools. done. }
  split.
  { intros tr1 g a tr2 Heq Ha.
    destruct (run_split _ _ _ _ _ _ Hrun _ _ _ Heq) as (s1 & ch & s1' & Hrun1 & Hstep & Hg).
    simpl in *. subst g. exists s1, s1'. split; [done|]. split; [by econstructor|].
    step_inv Hstep; simpl in *; done. }
  intros Hfin. destruct (finished_sync _ _ Hsync Hfin) as (_ & Hex & Hsema).
  pose proof (inv_tokens _ _ Htr) as Htok.
  pose proof (inv_acquired _ _ Htr) as Hacq. pose proof (inv_read _ _ Htr) as Hrd.
  assert (total waiting (walkers s) = 0 /\ total reading (walkers s) = 0) as [Hw Hr].
  { clear -Hex. induction Hex as [|w ws -> _ [IH1 IH2]]; simpl; lia. }
  lia.
Qed.

Lemma admission_gate_witness :
  run demo_ReadDir sample_Join godu_caps demo_cfg demo_trace demo_final
  /\ sema demo_final = 0%nat
  /\ occurrences is_release demo_trace = length (walkers demo_final).
Proof.
  split; [apply demo_is_run|].
  pose proof (admission_gate demo_ReadDir sample_Join godu_caps demo_cfg
                demo_trace demo_final demo_is_run) as (_ & _ & _ & _ & _ & _ & Hend).
  assert (finished (main demo_final) = true) as Hfin by (vm_compute; reflexivity).
  destruct (Hend Hfin) as (H0 & _ & _ & Hrel). split; [exact H0|exact Hrel].
Defined.

(** ** The gate and the command line *)

Lemma step_config ReadDirF Join cap c c' ch s :
  vFlag c' = vFlag c -> start c' = start c ->
  step ReadDirF Join cap c' ch s = step ReadDirF Join cap c ch s.
Proof.
  intros Hv Hs. unfold step, step_main, step_tick. by rewrite Hv, Hs.
Qed.

Lemma run_config ReadDirF Join cap c c' tr s :
  args c' = args c -> vFlag c' = vFlag c -> start c' = start c ->
  run ReadDirF Join cap c tr s -> run ReadDirF Join cap c' tr s.
Proof.
  intros Ha Hv Hs. induction 1 as [|tr s ch a s' Hrun IH Hstep].
  - replace (init c) with (init c') by (unfold init, roots; by rewrite Ha). constructor.
  - econstructor; [done|]. by rewrite (step_config _ _ _ c c').
Qed.

(** C5, as amended: the capacity of the gate is the constant 256 of the
    source, whatever the command line.  At most 256 directory reads are
    outstanding; a walker that asks for admission gets it when fewer than 256
    are outstanding and waits when 256 are; and the runs of the program do
    not depend on [-t] or on the number of processors (for thread counts
    below 2^31, with which [runtime.GOMAXPROCS] returns). *)
Theorem gate_capacity ReadDirF Join c tr s :
  run ReadDirF Join godu_caps c tr s ->
  (sema s <= 256)%nat
  /\ Z.of_nat (sema s) = total holding (walkers s)
  /\ (forall i dir,
        exited (main s) = false -> walkers s !! i = Some (WAcquire dir) ->
        (sema s < 256)%nat ->
        step ReadDirF Join godu_caps c (StepWalker i) s
        = Next Acquire (with_walkers (<[i := WRead dir]> (walkers s))
                          (with_sema (S (sema s)) s)))
  /\ (forall i dir,
        walkers s !! i = Some (WAcquire dir) -> sema s = 256%nat ->
        step ReadDirF Join godu_caps c (StepWalker i) s = Blocked)
  /\ (forall c', args c' = args c -> vFlag c' = vFlag c -> start c' = start c ->
        tFlag c < 2 ^ 31 -> tFlag c' < 2 ^ 31 ->
        run ReadDirF Join godu_caps c' tr s).
Proof.
  intros Hrun. destruct (run_sync _ _ _ _ _ _ Hrun) as (Hsync & _).
  split; [apply (inv_cap _ _ Hsync)|]. split; [apply (inv_sema _ _ Hsync)|].
  split; [|split].
  - intros i dir Hex Hi Hlt. unfold step. rewrite Hex. unfold step_walker. rewrite Hi.
    simpl. by destruct (Nat.ltb_spec (sema s) 256); [|lia].
  - intros i dir Hi Hfull. unfold step. destruct (exited (main s)); [done|].
    unfold step_walker. rewrite Hi, Hfull. reflexivity.
  - intros c' Ha Hv Hs _ _. by eapply run_config.
Qed.

Lemma gate_capacity_witness :
  run demo_ReadDir sample_Join godu_caps demo_cfg demo_trace demo_final
  /\ (sema demo_final <= 256)%nat
  /\ tFlag demo_cfg < 2 ^ 31 /\ tFlag (cmdline_t 1 ["."%string]) < 2 ^ 31
  /\ run demo_ReadDir sample_Join godu_caps (cmdline_t 1 ["."%string]) demo_trace demo_final.
Proof.
  split; [apply demo_is_run|].
  pose proof (gate_capacity demo_ReadDir sample_Join demo_cfg demo_trace demo_final
                demo_is_run) as (Hcap & _ & _ & _ & Hcfg).
  split; [exact Hcap|]. split; [reflexivity|]. split; [reflexivity|].
  apply Hcfg; reflexivity.
Defined.

(** With [-t 1], and with the default on a machine with one processor, two
    directory reads are outstanding at once: the gate does not have the
    configured capacity. *)
Lemma gate_exceeds_configuration :
  tOpt one_thread_cfg = Some 1 /\ tFlag one_thread_cfg = 1
  /\ tOpt one_cpu_cfg = None /\ NumCPU one_cpu_cfg = 1 /\ tFlag one_cpu_cfg = 1
  /\ exec huge_ReadDir sample_Join godu_caps one_thread_cfg two_readers
          (init one_thread_cfg) = Some (two_readers_trace, two_readers_state)
  /\ exec huge_ReadDir sample_Join godu_caps one_cpu_cfg two_readers
          (init one_cpu_cfg) = Some (two_readers_trace, two_readers_state)
  /\ run huge_ReadDir sample_Join godu_caps one_thread_cfg
         two_readers_trace two_readers_state
  /\ walkers two_readers_state = [WRead "a"; WRead "b"]
  /\ sema two_readers_state = 2%nat
  /\ sema_cap godu_caps = 256%nat.
Proof.
  do 5 (split; [reflexivity|]).
  split; [vm_compute; reflexivity|]. split; [vm_compute; reflexivity|].
  split; [apply (exec_init_run _ _ _ _ two_readers); vm_compute; reflexivity|].
  vm_compute. repeat split; reflexivity.
Qed.

(** * Further properties of the program *)

(** ** The channel and the aggregator loop *)

(** X2: [main] leaves its loop only when [fileSizes] is closed and drained:
    at that point every value that was sent has been received, so the totals
    are the number and the int64 sum of all the values sent.  No value is
    lost at the close, whatever the file system. *)
Theorem drained_at_exit ReadDirF Join cap c tr s :
  run ReadDirF Join cap c tr s -> finished (main s) = true ->
  closed s = true /\ fileSizes s = [] /\ received tr = sent tr
  /\ nfiles s = wrap64 (Z.of_nat (length (sent tr)))
  /\ nbytes s = wrap64 (sumZ (sent tr)).
Proof.
  intros Hrun Hfin. destruct (run_sync _ _ _ _ _ _ Hrun) as (Hsync & Htr & _).
  destruct (inv_finished _ _ Hsync Hfin) as [Hcl Hbuf].
  pose proof (inv_fifo _ _ Htr) as Hfifo. rewrite Hbuf, app_nil_r in Hfifo.
  rewrite Hfifo. split; [done|]. split; [done|]. split; [done|].
  split; [apply (inv_nfiles _ _ Htr)|apply (inv_nbytes _ _ Htr)].
Qed.

Lemma drained_at_exit_witness :
  run demo_ReadDir sample_Join godu_caps demo_cfg demo_trace demo_final
  /\ finished (main demo_final) = true
  /\ received demo_trace = sent demo_trace
  /\ nfiles demo_final = wrap64 (Z.of_nat (length (sent demo_trace))).
Proof.
  assert (finished (main demo_final) = true) as Hfin by (vm_compute; reflexivity).
  split; [apply demo_is_run|]. split; [exact Hfin|].
  pose proof (drained_at_exit demo_ReadDir sample_Join godu_caps demo_cfg
                demo_trace demo_final demo_is_run Hfin) as (_ & _ & Hr & Hn & _).
  split; [exact Hr|exact Hn].
Defined.

(** ** Standard output *)

Lemma count_nl_progress_line nfiles nbytes elapsed goroutines :
  count_nl (progress_line nfiles nbytes elapsed goroutines) = 0%nat.
Proof.
  unfold progress_line.
  repeat (rewrite count_nl_app || rewrite count_nl_fmt_d || rewrite count_nl_fmt_f1).
  done.
Qed.

(** X3: without [-v] the timer is never armed: no run contains a progress
    report, nothing is written to standard output while [main] runs, and when
    [main] has returned standard output holds the final report and nothing
    else. *)
Theorem quiet_without_v ReadDirF Join cap c tr s :
  vFlag c = false -> run ReadDirF Join cap c tr s ->
  occurrences is_tick tr = 0%nat
  /\ (exited (main s) = false -> stdout s = [])
  /\ (exited (main s) = true ->
      exists stop text,
        printDiskUsage (nfiles s) (nbytes s) (start c) stop = Some text
        /\ stdout s = [text]).
Proof.
  intros Hv. induction 1 as [|tr s ch a s' Hrun (IHt & IHo & IHx) Hstep].
  - split; [done|]. split; [done|]. unfold init, roots. simpl. by destruct (args c).
  - rewrite occurrences_snoc. step_inv Hstep; simpl in *; rewrite ?IHt; use_pcs; simpl.
    all: try (split; [done|]; split; [by auto|]; intros; congruence).
    all: try congruence.
    split; [done|]. split; [done|]. intros _. rewrite IHo by done. simpl. eauto.
Qed.

Lemma quiet_without_v_witness :
  vFlag demo_cfg = false
  /\ run demo_ReadDir sample_Join godu_caps demo_cfg demo_trace demo_final
  /\ occurrences is_tick demo_trace = 0%nat.
Proof.
  split; [reflexivity|]. split; [apply demo_is_run|].
  exact (proj1 (quiet_without_v demo_ReadDir sample_Join godu_caps demo_cfg
                  demo_trace demo_final eq_refl demo_is_run)).
Defined.

(** X4: a progress report is written only under [-v], by [main] in its
    loop, and is exactly one line: the totals received so far, the goroutine
    count and the rate, with one line terminator at the end. *)
Theorem progress_reports ReadDirF Join cap c tr s :
  run ReadDirF Join cap c tr s ->
  forall tr1 g text tr2, tr = tr1 ++ (g, Tick text) :: tr2 ->
    vFlag c = true /\ g = TMain
    /\ exists s1 now goroutines,
         run ReadDirF Join cap c tr1 s1 /\ main s1 = MSelect
         /\ nfiles s1 = wrap64 (Z.of_nat (length (received tr1)))
         /\ nbytes s1 = wrap64 (sumZ (received tr1))
         /\ text = (progress_line (nfiles s1) (nbytes s1)
                      (clamp_elapsed (int64_sub now (start c))) goroutines ++ nl)%string
         /\ count_nl text = 1%nat.
Proof.
  intros Hrun tr1 g text tr2 Heq.
  destruct (run_split _ _ _ _ _ _ Hrun _ _ _ Heq) as (s1 & ch & s1' & Hrun1 & Hstep & Hg).
  destruct (run_sync _ _ _ _ _ _ Hrun1) as (_ & Htr1 & _).
  simpl in *. step_inv Hstep.
  rewrite printProgress_text in Heqo. apply (inj Some) in Heqo as <-.
  split; [done|]. split; [done|]. exists s1, now, goroutines.
  split; [done|]. split; [done|].
  split; [apply (inv_nfiles _ _ Htr1)|]. split; [apply (inv_nbytes _ _ Htr1)|].
  split; [done|]. by rewrite count_nl_app, count_nl_progress_line.
Qed.

Lemma verbose_is_run :
  run plain_ReadDir sample_Join godu_caps verbose_cfg verbose_trace verbose_final.
Proof. apply (exec_init_run _ _ _ _ verbose_schedule). vm_compute. reflexivity. Qed.

Lemma progress_reports_witness :
  run plain_ReadDir sample_Join godu_caps verbose_cfg verbose_trace verbose_final
  /\ verbose_trace
     = take (length verbose_trace - 4) verbose_trace
       ++ (TMain, Tick ("Files: 4, Size: 0.0GB, Goroutines: 2, Cur FPS: 4" ++ nl)%string)
       :: drop (length verbose_trace - 3) verbose_trace
  /\ vFlag verbose_cfg = true
  /\ count_nl ("Files: 4, Size: 0.0GB, Goroutines: 2, Cur FPS: 4" ++ nl)%string = 1%nat.
Proof.
  assert (verbose_trace
          = take (length verbose_trace - 4) verbose_trace
            ++ (TMain, Tick ("Files: 4, Size: 0.0GB, Goroutines: 2, Cur FPS: 4" ++ nl)%string)
            :: drop (length verbose_trace - 3) verbose_trace) as Heq
    by (vm_compute; reflexivity).
  split; [apply verbose_is_run|]. split; [exact Heq|].
  pose proof (progress_reports plain_ReadDir sample_Join godu_caps verbose_cfg
                verbose_trace verbose_final verbose_is_run _ _ _ _ Heq)
    as (Hv & _ & s1 & now & g & _ & _ & _ & _ & _ & Hnl).
  split; [exact Hv|exact Hnl].
Defined.

(** ** The rate *)

(** X5: with a clock that does not run backwards and a non-negative file
    count, the interval is [max 1 (stop - start)] seconds and the rate is the
    number of files per second rounded down: it lies between 0 and the file
    count. *)
Theorem rate_bounds nfiles start stop :
  0 <= nfiles < 2 ^ 63 -> 0 <= start -> start <= stop -> stop < 2 ^ 63 ->
  let elapsed := clamp_elapsed (int64_sub stop start) in
  elapsed = Z.max 1 (stop - start)
  /\ int64_div nfiles elapsed = Some (nfiles / elapsed)
  /\ 0 <= nfiles / elapsed <= nfiles
  /\ nfiles / elapsed * elapsed <= nfiles < (nfiles / elapsed + 1) * elapsed.
Proof.
  intros Hn H0 Hle Hs elapsed. subst elapsed.
  assert (int64_sub stop start = stop - start) as ->
    by (unfold int64_sub; apply wrap64_small; lia).
  assert (clamp_elapsed (stop - start) = Z.max 1 (stop - start)) as ->.
  { unfold clamp_elapsed. destruct (Z.eqb_spec (stop - start) 0); lia. }
  set (e := Z.max 1 (stop - start)). assert (1 <= e) as He by lia.
  split; [done|].
  assert (0 <= nfiles / e <= nfiles) as Hq.
  { split; [apply Z.div_pos; lia|]. apply Z.div_le_upper_bound; nia. }
  split.
  { unfold int64_div. destruct (Z.eqb_spec e 0); [lia|].
    rewrite Z.quot_div_nonneg by lia. f_equal. apply wrap64_small. lia. }
  split; [done|].
  pose proof (Z.mul_div_le nfiles e). pose proof (Z.mul_succ_div_gt nfiles e). lia.
Qed.

Lemma rate_bounds_witness :
  0 <= 7 < 2 ^ 63 /\ 0 <= 100 /\ 100 <= 102 /\ 102 < 2 ^ 63
  /\ int64_div 7 (clamp_elapsed (int64_sub 102 100))
     = Some (7 / clamp_elapsed (int64_sub 102 100)).
Proof.
  assert (0 <= 7 < 2 ^ 63) as H1 by lia. assert (102 < 2 ^ 63) as H2 by lia.
  split; [exact H1|]. split; [lia|]. split; [lia|]. split; [exact H2|].
  exact (proj1 (proj2 (rate_bounds 7 100 102 H1 ltac:(lia) ltac:(lia) H2))).
Defined.

(** ** The WaitGroup *)

Lemma last_of_after g a tr1 tr2 :
  Forall (fun e : event => e.1 <> g) tr2 -> last_of g (tr1 ++ (g, a) :: tr2) = Some a.
Proof.
  induction tr2 as [|e tr2 IH] using rev_ind; intros Hall.
  - rewrite (last_of_snoc g tr1 (g, a)). simpl. by rewrite decide_True.
  - apply Forall_app in Hall as [Hall He]. rewrite Forall_singleton in He.
    change (tr1 ++ (g, a) :: tr2 ++ [e]) with (tr1 ++ ((g, a) :: tr2) ++ [e]).
    rewrite app_assoc, last_of_snoc. rewrite decide_False by done. by apply IH.
Qed.

Lemma balance_inv ReadDirF Join cap c tr s :
  run ReadDirF Join cap c tr s ->
  Z.of_nat (occurrences is_done tr) = total returned (walkers s)
  /\ Z.of_nat (occurrences is_add tr)
     = Z.of_nat (occurrences is_go tr) + total pending_go (walkers s)
       + main_pending_go (main s).
Proof.
  induction 1 as [|tr s ch a s' Hrun [IHd IHa] Hstep]; [done|].
  rewrite !occurrences_snoc.
  step_inv Hstep; simpl in *; use_pcs; simpl; totals; lia.
Qed.

Lemma total_live_returned ws : total live ws + total returned ws = Z.of_nat (length ws).
Proof. induction ws as [|[] ws IH]; simpl in *; lia. Qed.

Ltac last_cases H :=
  simpl in H;
  repeat match goal with
         | H' : _ \/ _ |- _ => destruct H'
         | H' : ex _ |- _ => destruct H'
         end;
  try congruence.

(** After its [Done] a walker does nothing more. *)
Lemma after_done ReadDirF Join cap c tr s :
  run ReadDirF Join cap c tr s ->
  forall tr1 g tr2, tr = tr1 ++ (g, Done) :: tr2 ->
  Forall (fun e : event => e.1 <> g) tr2.
Proof.
  induction 1 as [|tr s ch a s' Hrun IH Hstep]; intros tr1 g tr2 Heq.
  - by destruct tr1.
  - apply snoc_eq_middle in Heq as [(-> & -> & ?)|(tr2' & -> & ->)]; [constructor|].
    specialize (IH _ _ _ eq_refl).
    apply Forall_app. split; [done|]. rewrite Forall_singleton. simpl. intros <-.
    destruct (run_sync _ _ _ _ _ _ Hrun) as (_ & _ & Hord).
    pose proof (last_of_after (tid_of ch) Done tr1 tr2' IH) as Hlast.
    destruct ch as [now|now gs| |i]; simpl in *.
    + pose proof (inv_main_last _ _ Hord) as Hm. rewrite Hlast in Hm.
      destruct (main s); last_cases Hm.
    + pose proof (inv_main_last _ _ Hord) as Hm. rewrite Hlast in Hm.
      destruct (main s); last_cases Hm.
    + pose proof (inv_closer_last _ _ Hord) as Hc. rewrite Hlast in Hc.
      destruct (closer s); last_cases Hc.
    + destruct (walkers s !! i) as [w|] eqn:Hi.
      * pose proof (inv_walker_last _ _ Hord _ _ Hi) as Hw. rewrite Hlast in Hw.
        destruct w; last_cases Hw.
        unfold step in Hstep. destruct (exited (main s)); [done|].
        unfold step_walker in Hstep. by rewrite Hi in Hstep.
      * unfold step in Hstep. destruct (exited (main s)); [done|].
        unfold step_walker in Hstep. by rewrite Hi in Hstep.
Qed.

(** X7: the WaitGroup is balanced.  [Done] has been called once for each
    walker that has returned, and it is the last thing a walker does; [Add]
    has been called once for each walker started and once for each walker
    registered and about to be started.  When [main] leaves its loop, the
    calls of [Add], of [go walkDir] and of [Done] are as many as the
    walkers. *)
Theorem waitgroup_balanced ReadDirF Join cap c tr s :
  run ReadDirF Join cap c tr s ->
  Z.of_nat (occurrences is_done tr) = total returned (walkers s)
  /\ Z.of_nat (occurrences is_add tr)
     = Z.of_nat (occurrences is_go tr) + total pending_go (walkers s)
       + main_pending_go (main s)
  /\ occurrences is_go tr = length (walkers s)
  /\ (forall tr1 g tr2, tr = tr1 ++ (g, Done) :: tr2 ->
        (exists i, g = TWalker i) /\ Forall (fun e : event => e.1 <> g) tr2)
  /\ (finished (main s) = true ->
      occurrences is_add tr = length (walkers s)
      /\ occurrences is_done tr = length (walkers s)).
Proof.
  intros Hrun. destruct (balance_inv _ _ _ _ _ _ Hrun) as [Hd Ha].
  destruct (run_sync _ _ _ _ _ _ Hrun) as (Hsync & Htr & _).
  split; [done|]. split; [done|]. split; [symmetry; apply (inv_spawned _ _ Htr)|].
  split.
  - intros tr1 g tr2 Heq. split; [|by eapply after_done].
    destruct (run_split _ _ _ _ _ _ Hrun _ _ _ Heq) as (s1 & ch & s1' & _ & Hstep & Hg).
    simpl in *. step_inv Hstep. eauto.
  - intros Hfin. destruct (finished_sync _ _ Hsync Hfin) as (Hn & _ & _).
    pose proof (inv_n _ _ Hsync) as Hn'. pose proof (inv_counter _ _ Htr) as Hc.
    pose proof (inv_spawned _ _ Htr) as Hsp.
    pose proof (total_live_returned (walkers s)).
    pose proof (total_nonneg live (walkers s) live_nonneg).
    pose proof (total_nonneg pending_go (walkers s) pending_go_nonneg).
    assert (0 <= main_pending_go (main s)) by (destruct (main s); simpl; lia).
    lia.
Qed.

Lemma waitgroup_balanced_witness :
  run plain_ReadDir sample_Join godu_caps demo_cfg plain_trace plain_final
  /\ finished (main plain_final) = true
  /\ occurrences is_add plain_trace = length (walkers plain_final)
  /\ occurrences is_done plain_trace = length (walkers plain_final).
Proof.
  assert (finished (main plain_final) = true) as Hfin by (vm_compute; reflexivity).
  split; [apply plain_is_run|]. split; [exact Hfin|].
  pose proof (waitgroup_balanced plain_ReadDir sample_Join godu_caps demo_cfg
                plain_trace plain_final plain_is_run) as (_ & _ & _ & _ & Hend).
  exact (Hend Hfin).
Defined.

(** ** The directories read *)

Lemma readdirs_snoc tr e :
  readdirs (tr ++ [e]) = readdirs tr ++ match e.2 with ReadDir d => [d] | _ => [] end.
Proof. apply flat_map_snoc. Qed.

Lemma paths_of_nil Join ts : paths_of Join [] ts = [].
Proof. done. Qed.

Section Paths.

Variable ReadDirF : string -> list FileInfo + string.
Variable Join : string -> string -> string.
Variable cap : caps.
Variable c : config.
Variable T : list tree.
Hypothesis roots_mounted : Forall2 (mounted ReadDirF Join) (roots c) T.

(** What the other walkers have still to read when walker [i] moves on to
    [w'] with the tree [t']. *)
Ltac path_update wts i Hi w' t' :=
  let rp := fresh "rp" in
  destruct (flat_map_insert (walker_paths Join) wts i _ (w', t') Hi)
    as (rp & Ep1 & Ep2);
  unfold walker_paths in Ep1, Ep2; simpl in Ep1, Ep2.

Ltac paths :=
  split; simpl;
  rewrite ?readdirs_snoc, ?flat_map_snoc; simpl;
  simpl in *; rewrite ?app_nil_r in *; use_pcs; simpl;
  rewrite ?paths_of_nil, ?app_nil_r;
  try done.

Lemma path_inv_init : path_inv ReadDirF Join c T [] (init c) [] T.
Proof. split; simpl; done. Qed.

Lemma path_inv_step tr ch s a s' wts mts :
  path_inv ReadDirF Join c T tr s wts mts ->
  step ReadDirF Join cap c ch s = Next a s' ->
  exists wts' mts', path_inv ReadDirF Join c T (tr ++ [(tid_of ch, a)]) s' wts' mts'.
Proof.
  intros [Hws Htrees Hmain Hpaths] Hstep.
  step_inv Hstep.
  all: try match goal with
           | H : walkers _ !! ?i = Some ?w |- _ =>
               let t := fresh "t" in let Hi := fresh "Hi" in let Ht := fresh "Ht" in
               rewrite Hws in H; destruct (ghost_lookup _ _ _ H) as [t Hi];
               pose proof (Forall_lookup_1 _ _ _ _ Htrees Hi) as Ht; simpl in Ht
           end.
  all: simpl in Hmain.
  - (* go closer *)
    apply Forall2_nil_inv_l in Hmain as ->. exists wts, []. paths.
  - (* main: Add *)
    exists wts, mts. paths.
  - (* main: go walkDir(root) *)
    apply Forall2_cons_inv_l in Hmain as (t & mts' & Hroot & Hrest & ->).
    exists (wts ++ [(WAcquire root, t)]), mts'. paths.
    + by rewrite fmap_app, Hws.
    + apply Forall_app. split; [done|]. by apply Forall_singleton.
    + rewrite <- Hpaths. unfold paths_of. simpl. solve_Permutation.
  - (* main: channel closed *)
    exists wts, mts. paths.
  - (* main: receive *)
    exists wts, mts. paths.
  - (* main: printDiskUsage *)
    exists wts, mts. paths.
  - (* tick *)
    exists wts, mts. paths.
  - (* closer: Wait returns *)
    exists wts, mts. paths.
  - (* closer: close *)
    exists wts, mts. paths.
  - (* walker: acquire *)
    path_update wts i Hi (WRead dir) t.
    exists (<[i:=(WRead dir, t)]> wts), mts. paths.
    + by rewrite list_fmap_insert, Hws.
    + by apply Forall_insert.
    + by rewrite Ep2, <- Hpaths, Ep1.
  - (* walker: ReadDir succeeds *)
    destruct t as [err|es]; [simpl in Ht; congruence|].
    apply mounted_Entries in Ht as [Hr Hall].
    assert (l = map info es) as -> by congruence.
    path_update wts i Hi (WRelease dir (map info es)) (Entries es).
    exists (<[i:=(WRelease dir (map info es), Entries es)]> wts), mts. paths.
    + by rewrite list_fmap_insert, Hws.
    + apply Forall_insert; [done|]. simpl. eauto.
    + rewrite Ep2, <- Hpaths, Ep1. solve_Permutation.
  - (* walker: ReadDir fails *)
    destruct t as [err|es]; [|apply mounted_Entries in Ht as [Hr Hall]; congruence].
    simpl in Ht. assert (s0 = err) as -> by congruence.
    path_update wts i Hi (WReport dir err) (Failed err).
    exists (<[i:=(WReport dir err, Failed err)]> wts), mts. paths.
    + by rewrite list_fmap_insert, Hws.
    + by apply Forall_insert.
    + rewrite Ep2, <- Hpaths, Ep1. solve_Permutation.
  - (* walker: report the error *)
    subst t.
    path_update wts i Hi (WRelease dir []) (Entries []).
    exists (<[i:=(WRelease dir [], Entries [])]> wts), mts. paths.
    + by rewrite list_fmap_insert, Hws.
    + apply Forall_insert; [done|]. simpl. exists [].
      split; [done|]. split; [done|constructor].
    + by rewrite Ep2, <- Hpaths, Ep1.
  - (* walker: release *)
    path_update wts i Hi (WRange dir entries) t.
    exists (<[i:=(WRange dir entries, t)]> wts), mts. paths.
    + by rewrite list_fmap_insert, Hws.
    + by apply Forall_insert.
    + by rewrite Ep2, <- Hpaths, Ep1.
  - (* walker: Done *)
    destruct Ht as (es & -> & Hes & Hall).
    symmetry in Hes. apply map_eq_nil in Hes as ->.
    path_update wts i Hi WExit (Entries []).
    exists (<[i:=(WExit, Entries [])]> wts), mts. paths.
    + by rewrite list_fmap_insert, Hws.
    + by apply Forall_insert.
    + by rewrite Ep2, <- Hpaths, Ep1.
  - (* walker: Add for a subdirectory *)
    destruct Ht as (es & -> & Hes & Hall).
    destruct es as [|[name size|name size sub] es]; simplify_eq/=.
    apply Forall_cons in Hall as [Hsub Hall]. simpl in Hsub.
    path_update wts i Hi (WGo dir (info (Dir name size sub)) (map info es))
      (Entries (Dir name size sub :: es)).
    exists (<[i:=(WGo dir (info (Dir name size sub)) (map info es),
                  Entries (Dir name size sub :: es))]> wts), mts. paths.
    + by rewrite list_fmap_insert, Hws.
    + apply Forall_insert; [done|]. simpl. eauto 10.
    + by rewrite Ep2, <- Hpaths, Ep1.
  - (* walker: send a file size *)
    destruct Ht as (es & -> & Hes & Hall).
    destruct es as [|[name size|name size sub] es]; simplify_eq/=.
    apply Forall_cons in Hall as [_ Hall].
    path_update wts i Hi (WRange dir (map info es)) (Entries es).
    exists (<[i:=(WRange dir (map info es), Entries es)]> wts), mts. paths.
    + by rewrite list_fmap_insert, Hws.
    + apply Forall_insert; [done|]. simpl. eauto.
    + by rewrite Ep2, <- Hpaths, Ep1.
  - (* walker: go walkDir(subdir) *)
    destruct Ht as (name & size & sub & es & -> & -> & -> & Hsub & Hall).
    path_update wts i Hi (WRange dir (map info es)) (Entries es).
    exists (<[i:=(WRange dir (map info es), Entries es)]> wts
            ++ [(WAcquire (Join dir name), sub)]), mts. paths.
    + by rewrite fmap_app, list_fmap_insert, Hws.
    + apply Forall_app. split; [|by apply Forall_singleton].
      apply Forall_insert; [done|]. simpl. eauto.
    + rewrite Ep2, <- Hpaths, Ep1. simpl. solve_Permutation.
Qed.

Lemma run_paths tr s :
  run ReadDirF Join cap c tr s -> exists wts mts, path_inv ReadDirF Join c T tr s wts mts.
Proof.
  induction 1 as [|tr s ch a s' Hrun (wts & mts & Hinv) Hstep].
  - exists [], T. apply path_inv_init.
  - by eapply path_inv_step.
Qed.

Lemma exited_no_paths (wts : list (walker * tree)) :
  Forall (fun w => w = WExit) (wts.*1) -> flat_map (walker_paths Join) wts = [].
Proof.
  induction wts as [|[w t] wts IH]; simpl; [done|].
  rewrite Forall_cons. intros [-> Hall]. by rewrite IH.
Qed.

End Paths.

(** X8: every directory under the roots is read once, at the path that
    [filepath.Join] builds for it from the root.  At every point of a run the
    directories read are among those of the trees at the roots, none more
    often than it occurs there; when [main] has left its loop they are
    exactly those. *)
Theorem every_directory_read_once ReadDirF Join cap c T tr s :
  Forall2 (mounted ReadDirF Join) (roots c) T ->
  run ReadDirF Join cap c tr s ->
  readdirs tr ⊆+ paths_of Join (roots c) T
  /\ length (readdirs tr) = occurrences is_readdir tr
  /\ (finished (main s) = true -> readdirs tr ≡ₚ paths_of Join (roots c) T).
Proof.
  intros HT Hrun.
  destruct (run_paths _ _ _ _ _ HT _ _ Hrun) as (wts & mts & [Hws Htrees Hmain Hpaths]).
  split; [|split].
  - rewrite <- Hpaths. by apply submseteq_inserts_r.
  - clear. induction tr as [|[g a] tr IH] using rev_ind; [done|].
    rewrite readdirs_snoc, occurrences_snoc, length_app, IH. by destruct a.
  - intros Hfin.
    destruct (finished_run _ _ _ _ _ HT _ _ Hrun Hfin) as (_ & _ & _ & _ & Hex & _).
    rewrite Hws in Hex. rewrite (exited_no_paths Join _ Hex) in Hpaths.
    destruct (main s); try done; simpl in Hpaths; by rewrite !app_nil_r in Hpaths.
Qed.

Lemma every_directory_read_once_witness :
  Forall2 (mounted demo_ReadDir sample_Join) (roots demo_cfg) [demo_tree]
  /\ run demo_ReadDir sample_Join godu_caps demo_cfg demo_trace demo_final
  /\ finished (main demo_final) = true
  /\ readdirs demo_trace ≡ₚ paths_of sample_Join (roots demo_cfg) [demo_tree].
Proof.
  assert (Forall2 (mounted demo_ReadDir sample_Join) (roots demo_cfg) [demo_tree]) as HT.
  { repeat constructor. }
  assert (finished (main demo_final) = true) as Hfin by (vm_compute; reflexivity).
  split; [exact HT|]. split; [apply demo_is_run|]. split; [exact Hfin|].
  pose proof (every_directory_read_once demo_ReadDir sample_Join godu_caps demo_cfg
                [demo_tree] demo_trace demo_final HT demo_is_run) as (_ & _ & Hend).
  exact (Hend Hfin).
Defined.

(** ** One call of [walkDir] *)

(** Equality of two states, field by field. *)
Ltac state_eq s :=
  destruct s;
  cbv [with_walkers with_fileSizes with_n with_stderr with_sema
       main nfiles nbytes walkers closer n fileSizes closed sema stderr stdout] in *;
  f_equal.

Section WalkDir.

Variable ReadDirF : string -> list FileInfo + string.
Variable Join : string -> string -> string.
Variable cap : caps.
Variable c : config.

Lemma exec_app sched1 sched2 : forall s tr1 s1 tr2 s2,
  exec ReadDirF Join cap c sched1 s = Some (tr1, s1) ->
  exec ReadDirF Join cap c sched2 s1 = Some (tr2, s2) ->
  exec ReadDirF Join cap c (sched1 ++ sched2) s = Some (tr1 ++ tr2, s2).
Proof.
  induction sched1 as [|ch sched1 IH]; intros s tr1 s1 tr2 s2 H1 H2; simpl in *.
  - by simplify_eq.
  - destruct (step ReadDirF Join cap c ch s) as [| |a s'] eqn:Hstep; try done.
    destruct (exec ReadDirF Join cap c sched1 s') as [[tr s'']|] eqn:Hrest; simplify_eq.
    by rewrite (IH _ _ _ _ _ Hrest H2).
Qed.

Lemma range_alone i dir : forall entries s,
  exited (main s) = false ->
  walkers s !! i = Some (WRange dir entries) ->
  closed s = false -> 0 < n s ->
  (length (fileSizes s) + length (file_sizes entries) <= fileSizes_cap cap)%nat ->
  exec ReadDirF Join cap c
       (replicate (length (range_events Join i dir entries) + 1) (StepWalker i)) s
  = Some (range_events Join i dir entries ++ [(TWalker i, Done)],
          with_walkers (<[i := WExit]> (walkers s) ++ map WAcquire (subdirs Join dir entries))
            (with_fileSizes (fileSizes s ++ file_sizes entries)
               (with_n (n s + Z.of_nat (length (subdirs Join dir entries)) - 1) s))).
Proof.
  induction entries as [|e rest IH]; intros s Hex Hi Hcl Hn Hroom.
  - simpl. unfold step. rewrite Hex. unfold step_walker. rewrite Hi.
    destruct (n s <=? 0) eqn:Hle; [apply Z.leb_le in Hle; lia|].
    do 2 f_equal. state_eq s; simpl; rewrite ?app_nil_r; try done. lia.
  - assert (i < length (walkers s))%nat as Hlt by by eapply lookup_lt_Some.
    unfold range_events, subdirs, file_sizes in *. simpl in *.
    destruct (IsDir e) eqn:Hdir; simpl in *.
    + unfold step at 1. rewrite Hex. unfold step_walker at 1. rewrite Hi, Hdir.
      unfold step at 1. cbn [main with_walkers with_n]. rewrite Hex.
      unfold step_walker at 1. cbn [walkers with_walkers with_n].
      rewrite list_lookup_insert_eq by done.
      rewrite list_insert_insert_eq.
      rewrite IH; cbn [main walkers closed n fileSizes with_walkers with_n]; try done.
      * do 2 f_equal. rewrite insert_app_l by (by rewrite length_insert).
        rewrite list_insert_insert_eq.
        state_eq s; simpl; try done; [by rewrite <- app_assoc|lia].
      * rewrite lookup_app_l by (by rewrite length_insert).
        by rewrite list_lookup_insert_eq.
      * lia.
    + unfold step at 1. rewrite Hex. unfold step_walker at 1. rewrite Hi, Hdir, Hcl.
      destruct (length (fileSizes s) <? fileSizes_cap cap)%nat eqn:Hlt';
        [|apply Nat.ltb_ge in Hlt'; lia].
      rewrite IH; cbn [main walkers closed n fileSizes with_walkers with_fileSizes];
        try done.
      * do 2 f_equal. rewrite list_insert_insert_eq.
        state_eq s; simpl; try done. by rewrite <- app_assoc.
      * by rewrite list_lookup_insert_eq.
      * rewrite length_app. simpl. lia.
Qed.

Lemma dirents_alone i dir s :
  exited (main s) = false ->
  walkers s !! i = Some (WAcquire dir) ->
  (sema s < sema_cap cap)%nat ->
  exec ReadDirF Join cap c
       (replicate (3 + length (dirents ReadDirF dir).1) (StepWalker i)) s
  = Some ([(TWalker i, Acquire); (TWalker i, ReadDir dir)]
          ++ map (fun l => (TWalker i, Stderr l)) (dirents ReadDirF dir).1
          ++ [(TWalker i, Release)],
          with_walkers (<[i := WRange dir (dirents ReadDirF dir).2]> (walkers s))
            (with_stderr (stderr s ++ (dirents ReadDirF dir).1) s)).
Proof.
  intros Hex Hi Hsema.
  assert (i < length (walkers s))%nat as Hlt by by eapply lookup_lt_Some.
  apply Nat.ltb_lt in Hsema. unfold dirents.
  destruct (ReadDirF dir) as [entries|err] eqn:Hread; simpl.
  - unfold step at 1. rewrite Hex. unfold step_walker at 1. rewrite Hi, Hsema.
    unfold step at 1. cbn [main with_walkers with_sema]. rewrite Hex.
    unfold step_walker at 1. cbn [walkers with_walkers with_sema].
    rewrite list_lookup_insert_eq by done. rewrite Hread.
    unfold step at 1. cbn [main with_walkers with_sema]. rewrite Hex.
    unfold step_walker at 1. cbn [walkers sema with_walkers with_sema].
    rewrite list_lookup_insert_eq by (by rewrite length_insert).
    do 2 f_equal. rewrite !list_insert_insert_eq.
    state_eq s; simpl; rewrite ?app_nil_r; done.
  - unfold step at 1. rewrite Hex. unfold step_walker at 1. rewrite Hi, Hsema.
    unfold step at 1. cbn [main with_walkers with_sema]. rewrite Hex.
    unfold step_walker at 1. cbn [walkers with_walkers with_sema].
    rewrite list_lookup_insert_eq by done. rewrite Hread.
    unfold step at 1. cbn [main with_walkers with_sema]. rewrite Hex.
    unfold step_walker at 1. cbn [walkers sema with_walkers with_sema].
    rewrite list_lookup_insert_eq by (by rewrite length_insert).
    unfold step at 1. cbn [main with_walkers with_sema with_stderr]. rewrite Hex.
    unfold step_walker at 1. cbn [walkers sema with_walkers with_sema with_stderr].
    rewrite list_lookup_insert_eq by (by rewrite !length_insert).
    do 2 f_equal. rewrite !list_insert_insert_eq.
    state_eq s; simpl; done.
Qed.

End WalkDir.

(** X9: one call of [walkDir], run without interruption.  In a reachable
    state where a walker is about to enter [dirents], a token is free and
    the buffer of [fileSizes] has room for the sizes of the files of its
    directory, the walker can run to its end with no other goroutine taking
    a step: it acquires, reads, reports a failure, releases, then for each
    entry in the order of the listing either registers and starts a walker
    for the subdirectory or sends the size, and at last calls [Done].  It
    leaves its token returned, the sizes appended to the buffer, one new
    walker per subdirectory and the counter raised by their number less
    one. *)
Theorem walkDir_uninterrupted ReadDirF Join cap c tr s i dir :
  run ReadDirF Join cap c tr s ->
  walkers s !! i = Some (WAcquire dir) ->
  (sema s < sema_cap cap)%nat ->
  (length (fileSizes s) + length (file_sizes (dirents ReadDirF dir).2)
   <= fileSizes_cap cap)%nat ->
  exec ReadDirF Join cap c
       (replicate (length (walkDir_events ReadDirF Join i dir)) (StepWalker i)) s
  = Some (walkDir_events ReadDirF Join i dir, walkDir_state ReadDirF Join i dir s)
  /\ run ReadDirF Join cap c (tr ++ walkDir_events ReadDirF Join i dir)
         (walkDir_state ReadDirF Join i dir s).
Proof.
  intros Hrun Hi Hsema Hroom.
  destruct (run_sync _ _ _ _ _ _ Hrun) as (Hsync & _ & _).
  assert (i < length (walkers s))%nat as Hlt by by eapply lookup_lt_Some.
  assert (0 < n s) as Hn by by eapply live_counter.
  assert (exited (main s) = false) as Hex.
  { destruct (exited (main s)) eqn:Hex; [|done].
    destruct (finished_sync _ _ Hsync (exited_finished _ Hex)) as (Hn0 & _). lia. }
  assert (closed s = false) as Hcl.
  { destruct (closed s) eqn:Hcl; [|done].
    assert (n s = 0); [|lia].
    apply (inv_waited _ _ Hsync). right. by apply (inv_closed _ _ Hsync). }
  assert (exec ReadDirF Join cap c
            (replicate (length (walkDir_events ReadDirF Join i dir)) (StepWalker i)) s
          = Some (walkDir_events ReadDirF Join i dir, walkDir_state ReadDirF Join i dir s))
    as Hexec.
  { unfold walkDir_events, walkDir_state. cbv zeta.
    set (r := dirents ReadDirF dir) in *.
    replace (length ([(TWalker i, Acquire); (TWalker i, ReadDir dir)]
                     ++ map (fun l => (TWalker i, Stderr l)) r.1
                     ++ [(TWalker i, Release)]
                     ++ range_events Join i dir r.2 ++ [(TWalker i, Done)]))
      with ((3 + length r.1) + (length (range_events Join i dir r.2) + 1))%nat
      by (rewrite !length_app, length_map; simpl; lia).
    rewrite replicate_add.
    pose proof (dirents_alone ReadDirF Join cap c i dir s Hex Hi Hsema) as H1.
    fold r in H1.
    pose proof (range_alone ReadDirF Join cap c i dir r.2
                  (with_walkers (<[i := WRange dir r.2]> (walkers s))
                     (with_stderr (stderr s ++ r.1) s))
                  Hex (list_lookup_insert_eq _ _ _ Hlt) Hcl Hn Hroom) as H2.
    rewrite (exec_app _ _ _ _ _ _ _ _ _ _ _ H1 H2).
    f_equal. f_equal.
    - by rewrite <- !app_assoc.
    - cbn [walkers fileSizes n with_walkers with_stderr].
      rewrite list_insert_insert_eq. by state_eq s. }
  split; [done|]. by eapply exec_run.
Qed.

Lemma dispatched_is_run :
  run demo_ReadDir sample_Join godu_caps demo_cfg dispatched_trace dispatched_state.
Proof.
  apply (exec_init_run _ _ _ _ [StepMain 100; StepMain 100]). vm_compute. reflexivity.
Qed.

Lemma walkDir_uninterrupted_witness :
  run demo_ReadDir sample_Join godu_caps demo_cfg dispatched_trace dispatched_state
  /\ walkers dispatched_state !! 0%nat = Some (WAcquire ".")
  /\ (sema dispatched_state < sema_cap godu_caps)%nat
  /\ (length (fileSizes dispatched_state)
      + length (file_sizes (dirents demo_ReadDir ".").2)
      <= fileSizes_cap godu_caps)%nat
  /\ run demo_ReadDir sample_Join godu_caps demo_cfg
         (dispatched_trace ++ walkDir_events demo_ReadDir sample_Join 0 ".")
         (walkDir_state demo_ReadDir sample_Join 0 "." dispatched_state).
Proof.
  assert (walkers dispatched_state !! 0%nat = Some (WAcquire ".")) as Hi
    by (vm_compute; reflexivity).
  assert (sema dispatched_state < sema_cap godu_caps)%nat as Hsema
    by (vm_compute; lia).
  assert (length (fileSizes dispatched_state)
          + length (file_sizes (dirents demo_ReadDir ".").2)
          <= fileSizes_cap godu_caps)%nat as Hroom
    by (vm_compute; lia).
  split; [apply dispatched_is_run|]. split; [exact Hi|]. split; [exact Hsema|].
  split; [exact Hroom|].
  pose proof (walkDir_uninterrupted demo_ReadDir sample_Join godu_caps demo_cfg
                dispatched_trace dispatched_state 0 "." dispatched_is_run
                Hi Hsema Hroom) as [_ Hrun].
  exact Hrun.
Defined.

(** The call of [walkDir] on the root of the sample tree sends the sizes of
    its two files and starts the walkers of its two subdirectories. *)
Example walkDir_demo :
  walkDir_events demo_ReadDir sample_Join 0 "."
  = [(TWalker 0, Acquire); (TWalker 0, ReadDir "."); (TWalker 0, Release);
     (TWalker 0, Send 10); (TWalker 0, Send 5);
     (TWalker 0, Add); (TWalker 0, Go "locked");
     (TWalker 0, Add); (TWalker 0, Go "sub"); (TWalker 0, Done)].
Proof. vm_compute. reflexivity. Qed.

(** ** The running totals *)

Lemma sumZ_nonneg l : Forall (fun v => 0 <= v) l -> 0 <= sumZ l.
Proof. unfold sumZ. induction 1; simpl; lia. Qed.

Lemma part_bounds (l k m : list Z) :
  l ++ k ≡ₚ m -> Forall (fun v => 0 <= v) m ->
  Forall (fun v => 0 <= v) l
  /\ (length l <= length m)%nat /\ 0 <= sumZ l <= sumZ m.
Proof.
  intros Hp Hm. rewrite <- Hp in Hm. apply Forall_app in Hm as [Hl Hk].
  rewrite <- (sumZ_perm _ _ Hp), <- (Permutation_length Hp), length_app, sumZ_app.
  pose proof (sumZ_nonneg _ Hl). pose proof (sumZ_nonneg _ Hk).
  split; [done|]. lia.
Qed.

Lemma totals_exact ReadDirF Join cap c T tr s :
  Forall2 (mounted ReadDirF Join) (roots c) T ->
  Forall (fun v => 0 <= v) (flat_map sizes T) ->
  nfiles_of T < 2 ^ 63 -> nbytes_of T < 2 ^ 63 ->
  run ReadDirF Join cap c tr s ->
  Forall (fun v => 0 <= v) (received tr)
  /\ nfiles s = Z.of_nat (length (received tr))
  /\ nbytes s = sumZ (received tr)
  /\ nfiles s <= nfiles_of T /\ nbytes s <= nbytes_of T.
Proof.
  intros HT Hpos Hnf Hnb Hrun.
  destruct (run_inv _ _ _ _ _ HT _ _ Hrun) as (_ & Htr & wts & mts & Hdata).
  pose proof (inv_sizes _ _ _ _ _ _ _ Hdata) as Hsizes.
  rewrite (inv_fifo _ _ Htr), <- !app_assoc in Hsizes.
  destruct (part_bounds _ _ _ Hsizes Hpos) as (Hrecv & Hlen & Hsum).
  unfold nfiles_of, nbytes_of in *.
  rewrite (inv_nfiles _ _ Htr), (inv_nbytes _ _ Htr).
  rewrite !wrap64_small by lia. split; [done|]. lia.
Qed.

(** X10: the running totals.  When the sizes under the roots are not
    negative and their number and their sum fit in an int64, the counters of
    [main] are at every point of a run the number and the sum of the sizes
    received so far, lie between zero and the totals of the trees, and no
    step lowers them: the figures of a progress report never run ahead of
    the final report, nor back. *)
Theorem running_totals ReadDirF Join cap c T tr s :
  Forall2 (mounted ReadDirF Join) (roots c) T ->
  Forall (fun v => 0 <= v) (flat_map sizes T) ->
  nfiles_of T < 2 ^ 63 -> nbytes_of T < 2 ^ 63 ->
  run ReadDirF Join cap c tr s ->
  nfiles s = Z.of_nat (length (received tr))
  /\ nbytes s = sumZ (received tr)
  /\ 0 <= nfiles s <= nfiles_of T
  /\ 0 <= nbytes s <= nbytes_of T
  /\ (forall ch a s', step ReadDirF Join cap c ch s = Next a s' ->
        nfiles s <= nfiles s' /\ nbytes s <= nbytes s').
Proof.
  intros HT Hpos Hnf Hnb Hrun.
  destruct (totals_exact _ _ _ _ _ _ _ HT Hpos Hnf Hnb Hrun)
    as (Hrecv & Hf & Hb & Hfle & Hble).
  pose proof (sumZ_nonneg _ Hrecv).
  split; [done|]. split; [done|]. split; [lia|]. split; [lia|].
  intros ch a s' Hstep.
  destruct (totals_exact _ _ _ _ _ _ _ HT Hpos Hnf Hnb (run_step _ _ _ _ _ _ _ _ _ Hrun Hstep))
    as (Hrecv' & Hf' & Hb' & _).
  rewrite Hf, Hb, Hf', Hb'. rewrite received_snoc in *.
  apply Forall_app in Hrecv' as [_ Hnew]. pose proof (sumZ_nonneg _ Hnew).
  rewrite length_app, sumZ_app. lia.
Qed.

Lemma running_totals_witness :
  Forall2 (mounted demo_ReadDir sample_Join) (roots demo_cfg) [demo_tree]
  /\ Forall (fun v => 0 <= v) (flat_map sizes [demo_tree])
  /\ nfiles_of [demo_tree] < 2 ^ 63 /\ nbytes_of [demo_tree] < 2 ^ 63
  /\ run demo_ReadDir sample_Join godu_caps demo_cfg demo_trace demo_final
  /\ 0 <= nfiles demo_final <= nfiles_of [demo_tree]
  /\ 0 <= nbytes demo_final <= nbytes_of [demo_tree].
Proof.
  assert (Forall2 (mounted demo_ReadDir sample_Join) (roots demo_cfg) [demo_tree]) as HT.
  { repeat constructor. }
  assert (Forall (fun v => 0 <= v) (flat_map sizes [demo_tree])) as Hpos.
  { repeat constructor; vm_compute; discriminate. }
  assert (nfiles_of [demo_tree] < 2 ^ 63) as Hnf by (vm_compute; reflexivity).
  assert (nbytes_of [demo_tree] < 2 ^ 63) as Hnb by (vm_compute; reflexivity).
  split; [exact HT|]. split; [exact Hpos|]. split; [exact Hnf|]. split; [exact Hnb|].
  split; [apply demo_is_run|].
  pose proof (running_totals demo_ReadDir sample_Join godu_caps demo_cfg [demo_tree]
                demo_trace demo_final HT Hpos Hnf Hnb demo_is_run)
    as (_ & _ & Hf & Hb & _).
  split; [exact Hf|exact Hb].
Defined.
